(** * ubnt: a libssh client for Ubiquiti devices

    Shallow embedding of [ubnt.c] (string utilities, session handling,
    command execution, the mca-status to JSON transformer and the scp pull
    of the configuration file) and of the copy of the library that keeps
    the function bodies in the headers ([device.h], [utils.h]), where
    [ubnt_connect_key] and [ubnt_exec_command] differ from ubnt.c.

    Conventions.
    - A [char] object is a [block]: the list of its bytes, each byte either
      holding a character or indeterminate (never written since [malloc]).
      A [char *] is a [pointer]: NULL or the start of a block.
    - Reading or writing outside a block, reading an indeterminate byte and
      dereferencing NULL have no defined behaviour in C; the embedding
      returns [UB] there instead of inventing a value.
    - [int] values are in [Z]; a [size_t] converted to [int] goes through
      [to_int] (32-bit two's complement); index arithmetic and the sums of
      return codes are kept in [Z].
    - [malloc] and [calloc] are taken to succeed for every size that fits the
      address space: the code dereferences their results unchecked. *)

From Stdlib Require Import ZArith Ascii String List Lia Bool.
From stdpp Require Import base option list.

Local Open Scope Z_scope.

(** ** Undefined behaviour as a result *)

Inductive ub (A : Type) : Type :=
| Val (a : A)
| UB.
Arguments Val {A} a.
Arguments UB {A}.

#[global] Instance ub_ret : MRet ub := fun _ a => Val a.
#[global] Instance ub_bind : MBind ub := fun _ _ f m =>
  match m with
  | Val a => f a
  | UB => UB
  end.
#[global] Instance ub_fmap : FMap ub := fun _ _ f m =>
  match m with
  | Val a => Val (f a)
  | UB => UB
  end.

(** ** Characters *)

Definition NUL : ascii := "000"%char.
Definition TAB : ascii := "009"%char.
Definition LF : ascii := "010"%char.
Definition VT : ascii := "011"%char.
Definition FF : ascii := "012"%char.
Definition CR : ascii := "013"%char.
Definition SP : ascii := " "%char.
Definition DQ : ascii := "034"%char.

(** [isspace] of <ctype.h> in the C locale, on the byte value of the
    character. *)
Definition isspace (c : ascii) : bool :=
  Ascii.eqb c SP || Ascii.eqb c TAB || Ascii.eqb c LF
  || Ascii.eqb c VT || Ascii.eqb c FF || Ascii.eqb c CR.

(** ** Memory blocks *)

Abbreviation cell := (option ascii).
Abbreviation block := (list cell).
Abbreviation pointer := (option block).

Definition to_int (z : Z) : Z := (z + 2 ^ 31) mod 2 ^ 32 - 2 ^ 31.

(** [b[i]] as an rvalue. *)
Definition load (b : block) (i : Z) : ub ascii :=
  if 0 <=? i then
    match b !! Z.to_nat i with
    | Some (Some c) => Val c
    | _ => UB
    end
  else UB.

(** [b[i] = c]. *)
Definition store (b : block) (i : Z) (c : ascii) : ub block :=
  if (0 <=? i) && (i <? Z.of_nat (length b))
  then Val (<[Z.to_nat i := Some c]> b)
  else UB.

(** [malloc(n)]: [n] indeterminate bytes.  A negative [int] converts to a
    [size_t] no allocator can satisfy, and the result is NULL. *)
Definition malloc (n : Z) : pointer :=
  if n <? 0 then None else Some (repeat None (Z.to_nat n)).

(** [calloc(nmemb, size)]: [nmemb * size] zero bytes. *)
Definition calloc (nmemb size : Z) : pointer :=
  if (nmemb <? 0) || (size <? 0) then None
  else Some (repeat (Some NUL) (Z.to_nat (nmemb * size))).

(** [strlen]: the index of the first NUL of the block. *)
Fixpoint strlen (b : block) : ub nat :=
  match b with
  | Some c :: t => if Ascii.eqb c NUL then Val 0%nat else S <$> strlen t
  | _ => UB
  end.

(** The C string a block holds: its characters up to the first NUL. *)
Fixpoint cstring (b : block) : ub (list ascii) :=
  match b with
  | Some c :: t => if Ascii.eqb c NUL then Val [] else cons c <$> cstring t
  | _ => UB
  end.

(** A block holding the string [s]: its characters, the terminator, and
    whatever lies behind it in the same object. *)
Definition lit (s : string) : list ascii := list_ascii_of_string s.
Definition holding (s : list ascii) (rest : block) : block :=
  map Some s ++ Some NUL :: rest.

(** A string in a block of exactly its size, as a string literal is. *)
Definition cstr (s : list ascii) : block := holding s [].

(** A string at the start of a larger zeroed block. *)
Definition cstr_in (s : list ascii) (room : nat) : block :=
  holding s (repeat (Some NUL) room).

(** ** utils: rstrip, strip *)

(** [while (isspace(str[i - 1])) i--;] from [i] down; gives the [i] the loop
    ends with.  At [i = 0] the condition itself is out of bounds. *)
Fixpoint rstrip_scan (str : block) (i : nat) : ub Z :=
  c ← load str (Z.of_nat i - 1);
  if isspace c then
    match i with
    | O => UB
    | S i' => rstrip_scan str i'
    end
  else Val (Z.of_nat i).

Definition rstrip (str : pointer) : ub pointer :=
  match str with
  | None => Val None
  | Some b =>
      n ← strlen b;
      let i := to_int (Z.of_nat n) in
      if i >? 0 then
        i' ← rstrip_scan b (Z.to_nat i);
        b' ← store b i' NUL;
        Val (Some b')
      else Val (Some b)
  end.

Definition strip_keeps (c : ascii) : bool :=
  negb (Ascii.eqb c LF) && negb (Ascii.eqb c TAB) && negb (Ascii.eqb c CR).

(** [for (int i = 0; i < length; i++) if (...) stripped_str[j++] = str[i];]
    with [n] the iterations left. *)
Fixpoint strip_loop (str : block) (n : nat) (i : Z) (stripped_str : block) (j : Z)
  : ub (block * Z) :=
  match n with
  | O => Val (stripped_str, j)
  | S n' =>
      c ← load str i;
      if strip_keeps c then
        stripped_str' ← store stripped_str j c;
        strip_loop str n' (i + 1) stripped_str' (j + 1)
      else strip_loop str n' (i + 1) stripped_str j
  end.

Definition strip (str : pointer) : ub pointer :=
  match str with
  | None => Val None
  | Some b =>
      n ← strlen b;
      let length := to_int (Z.of_nat n + 100) in
      match malloc length with
      | None => UB
      | Some stripped_str =>
          '(stripped_str, j) ← strip_loop b (Z.to_nat length) 0 stripped_str 0;
          stripped_str ← store stripped_str j NUL;
          Val (Some stripped_str)
      end
  end.

(** The string a returned [char *] denotes. *)
Definition string_of (p : pointer) : ub (option (list ascii)) :=
  match p with
  | None => Val None
  | Some b => Some <$> cstring b
  end.

(** ** <string.h> functions used by the transformer *)

(** The bytes [data] written from [b[off]] on. *)
Fixpoint store_bytes (b : block) (off : Z) (data : list ascii) : ub block :=
  match data with
  | [] => Val b
  | c :: t => b' ← store b off c; store_bytes b' (off + 1) t
  end.

Fixpoint is_prefix (needle hay : list ascii) : bool :=
  match needle, hay with
  | [], _ => true
  | n :: ns, h :: hs => Ascii.eqb n h && is_prefix ns hs
  | _ :: _, [] => false
  end.

Fixpoint find_first (needle hay : list ascii) : option nat :=
  if is_prefix needle hay then Some 0%nat
  else match hay with
       | [] => None
       | _ :: t => S <$> find_first needle t
       end.

(** [strstr(hay, needle)]: the offset of the first occurrence of [needle]
    in the string held by [hay], or NULL. *)
Definition strstr (hay : block) (needle : list ascii) : ub (option Z) :=
  s ← cstring hay; Val (Z.of_nat <$> find_first needle s).

(** [strncpy(dst + off, src, n)]: [n] bytes, NUL-padded when [src] is
    shorter. *)
Definition strncpy (dst : block) (off : Z) (src : list ascii) (n : nat) : ub block :=
  store_bytes dst off (take n (src ++ repeat NUL n)).

(** [memcpy(dst, src, n)] between the starts of two blocks; indeterminate
    bytes are copied as they are. *)
Definition memcpy (dst src : block) (n : Z) : ub block :=
  if (0 <=? n) && (n <=? Z.of_nat (length src)) && (n <=? Z.of_nat (length dst))
  then Val (take (Z.to_nat n) src ++ drop (Z.to_nat n) dst)
  else UB.

(** ** mca_to_json *)

Definition mca_parsed_size : Z := 2048.

(** Lines 289-291: [sub = strstr(str, ", "); if (sub != NULL) strncpy(sub, "--", 2);] *)
Definition mca_prepass (str : block) : ub block :=
  sub ← strstr str (lit ", ");
  match sub with
  | Some k => strncpy str k (lit "--") 2
  | None => Val str
  end.

(** The [switch (str[i])] of the loop body; gives the buffer and the values
    of [i] and [j] at the end of the switch, before [j++] and the loop's
    [i++]. *)
Definition mca_switch (str buffer : block) (i j : Z) : ub (block * Z * Z) :=
  c ← load str i;
  if Ascii.eqb c "="%char then
    buffer ← store buffer j DQ;
    buffer ← store buffer (j + 1) ":"%char;
    buffer ← store buffer (j + 2) DQ;
    Val (buffer, i, j + 2)
  else if Ascii.eqb c ","%char then
    buffer ← store buffer j DQ;
    buffer ← store buffer (j + 1) ","%char;
    buffer ← store buffer (j + 2) DQ;
    Val (buffer, i, j + 2)
  else if Ascii.eqb c CR then
    p ← load str (i - 1);
    if Ascii.eqb p LF then Val (buffer, i + 1, j - 1)
    else buffer ← store buffer j DQ; Val (buffer, i, j)
  else if Ascii.eqb c LF then
    buffer ← store buffer j ","%char;
    buffer ← store buffer (j + 1) DQ;
    Val (buffer, i, j + 1)
  else
    buffer ← store buffer j c;
    Val (buffer, i, j).

(** [for (i = 0; i < length; i++) { switch ...; j++; }].  [i] grows by at
    least one per iteration, so [fuel >= length - i] iterations are never
    used up ([mca_loop_fuel] below). *)
Fixpoint mca_loop (fuel : nat) (str : block) (length : Z) (buffer : block) (i j : Z)
  : ub (block * Z) :=
  match fuel with
  | O => Val (buffer, j)
  | S fuel' =>
      if i <? length then
        '(buffer, i, j) ← mca_switch str buffer i j;
        mca_loop fuel' str length buffer (i + 1) (j + 1)
      else Val (buffer, j)
  end.

(** From [buffer[0] = '['] to [buffer[++j] = 0]. *)
Definition mca_emit (str : block) (length : Z) (buffer : block) : ub block :=
  buffer ← store buffer 0 "["%char;
  buffer ← store buffer 1 "{"%char;
  buffer ← store buffer 2 DQ;
  '(buffer, j) ← mca_loop (Z.to_nat length) str length buffer 0 3;
  buffer ← store buffer j DQ;
  buffer ← store buffer (j + 1) "}"%char;
  buffer ← store buffer (j + 2) "]"%char;
  store buffer (j + 3) NUL.

(** Returns the input block as the call leaves it and the new buffer. *)
Definition mca_to_json (str : pointer) : ub (block * pointer) :=
  match str with
  | None => UB
  | Some str =>
      n ← strlen str;
      let length := to_int (Z.of_nat n) in
      match malloc mca_parsed_size with
      | None => UB
      | Some buffer =>
          str ← mca_prepass str;
          buffer ← mca_emit str length buffer;
          Val (str, Some buffer)
      end
  end.

(** The document [mca_to_json] returns for the string [s]. *)
Definition mca_document (s : list ascii) : ub (option (list ascii)) :=
  r ← mca_to_json (Some (cstr s)); string_of r.2.

(** ** The libssh interface

    Values of <libssh/libssh.h> and of device.h. *)

Definition SSH_OK : Z := 0.
Definition SSH_ERROR : Z := -1.
Definition SSH_AUTH_SUCCESS : Z := 0.
Definition SSH_AUTH_DENIED : Z := 1.
Definition SSH_SCP_READ : Z := 1.
Definition SSH_SCP_REQUEST_NEWFILE : Z := 2.
Definition SSH_SCP_REQUEST_EOF : Z := 3.
Definition CONNECTION_OK : Z := 0.
Definition TIMEOUT : Z := 30000.
Definition CONFIG : list ascii := lit "/tmp/system.cfg".
Definition SCP_READ_SIZE : Z := 2048.

(** [enum UBNT_STATUS {UBNT_SUCCESS, UBNT_ERROR};] of device.h. *)
Definition UBNT_SUCCESS : Z := 0.
Definition UBNT_ERROR : Z := 1.

(** An object owned by libssh: NULL or an opaque identifier. *)
Abbreviation handle := (option nat).
Abbreviation ssh_session := handle.
Abbreviation ssh_channel := handle.
Abbreviation ssh_key := handle.
Abbreviation ssh_scp := handle.

(** The libssh functions the client calls, indexed by what they give back.
    A function with an out-parameter gives back its new value too; the two
    read functions give back the bytes they put at the destination and
    their return value. *)
Inductive call : Type -> Type :=
| ssh_is_connected (session : ssh_session) : call Z
| ssh_connect (session : ssh_session) : call Z
| ssh_userauth_password (session : ssh_session) (password : list ascii) : call Z
| ssh_key_new : call ssh_key
| ssh_pki_import_pubkey_file (filename : list ascii) (pkey : ssh_key) : call (Z * ssh_key)
| ssh_userauth_try_publickey (session : ssh_session) (pubkey : ssh_key) : call Z
| ssh_pki_import_privkey_file (filename : list ascii) (pkey : ssh_key) : call (Z * ssh_key)
| ssh_userauth_publickey (session : ssh_session) (privkey : ssh_key) : call Z
| ssh_key_free (key : ssh_key) : call unit
| ssh_channel_new (session : ssh_session) : call ssh_channel
| ssh_channel_open_session (channel : ssh_channel) : call Z
| ssh_channel_request_exec (channel : ssh_channel) (cmd : list ascii) : call Z
| ssh_channel_is_open (channel : ssh_channel) : call Z
| ssh_channel_is_eof (channel : ssh_channel) : call Z
| ssh_channel_poll_timeout (channel : ssh_channel) (timeout is_stderr : Z) : call Z
| ssh_channel_read_timeout (channel : ssh_channel) (count is_stderr timeout : Z)
  : call (list ascii * Z)
| ssh_channel_send_eof (channel : ssh_channel) : call Z
| ssh_channel_close (channel : ssh_channel) : call Z
| ssh_channel_free (channel : ssh_channel) : call unit
| ssh_scp_new (session : ssh_session) (mode : Z) (location : list ascii) : call ssh_scp
| ssh_scp_init (scp : ssh_scp) : call Z
| ssh_scp_pull_request (scp : ssh_scp) : call Z
| ssh_scp_request_get_size (scp : ssh_scp) : call Z
| ssh_scp_accept_request (scp : ssh_scp) : call Z
| ssh_scp_read (scp : ssh_scp) (size : Z) : call (list ascii * Z)
| ssh_scp_close (scp : ssh_scp) : call Z
| ssh_scp_free (scp : ssh_scp) : call unit.

(** One call that was made, with its answer. *)
Record entry : Type := Entry {
  entry_type : Type;
  entry_call : call entry_type;
  entry_answer : entry_type
}.
Arguments Entry {entry_type} entry_call entry_answer.

Record UBNTDevice : Type := {
  host : list ascii;
  port : Z;
  username : list ascii;
  session : ssh_session
}.

(** ** Running against a transport *)

(** A transport: a state and the answer of libssh to every call. *)
Definition transport (W : Type) : Type := forall R : Type, call R -> W -> R * W.

(** The transport state and the calls made so far, oldest first. *)
Record world (W : Type) : Type := World {
  lib : W;
  trace : list entry
}.
Arguments World {W} lib trace.
Arguments lib {W} w.
Arguments trace {W} w.

Inductive result (W A : Type) : Type :=
| Returns (a : A) (w : world W)
| Undefined (w : world W)
| OutOfFuel.
Arguments Returns {W A} a w.
Arguments Undefined {W A} w.
Arguments OutOfFuel {W A}.

Definition M (W A : Type) : Type := world W -> result W A.

#[global] Instance M_ret {W : Type} : MRet (M W) := fun _ a w => Returns a w.
#[global] Instance M_bind {W : Type} : MBind (M W) := fun _ _ f m w =>
  match m w with
  | Returns a w' => f a w'
  | Undefined w' => Undefined w'
  | OutOfFuel => OutOfFuel
  end.

Definition invoke {W R : Type} (libssh : transport W) (c : call R) : M W R := fun w =>
  let (r, l) := libssh R c (lib w) in
  Returns r {| lib := l; trace := trace w ++ [Entry c r] |}.

Definition lift {W A : Type} (m : ub A) : M W A := fun w =>
  match m with
  | Val a => Returns a w
  | UB => Undefined w
  end.

Definition out_of_fuel {W A : Type} : M W A := fun _ => OutOfFuel.

(** A library function has put [data] at [p + off]. *)
Definition filled {W : Type} (p : pointer) (off : Z) (data : list ascii) : M W pointer :=
  match p with
  | None => lift (match data with [] => Val None | _ => UB end)
  | Some b => lift (Some <$> store_bytes b off data)
  end.

(** ** ubnt.c *)

Definition buffer_size : Z := 8192.

Section Client.

Context {W : Type}.
Variable libssh : transport W.
#[local] Abbreviation invoke := (invoke libssh).

Definition ubnt_connect_password (device : UBNTDevice) (password : list ascii) : M W Z :=
  rc ← invoke (ssh_connect (session device));
  if rc =? SSH_OK
  then invoke (ssh_userauth_password (session device) password)
  else mret rc.

Definition ubnt_connect_key (device : UBNTDevice)
    (publickey_file privatekey_file : list ascii) : M W Z :=
  publickey ← invoke ssh_key_new;
  privatekey ← invoke ssh_key_new;
  '(rc, publickey) ← invoke (ssh_pki_import_pubkey_file publickey_file publickey);
  rc ← invoke (ssh_connect (session device));
  rc ← invoke (ssh_userauth_try_publickey (session device) publickey);
  '(rc, privatekey) ←
    (if rc =? SSH_AUTH_SUCCESS then
       '(rc, privatekey) ← invoke (ssh_pki_import_privkey_file privatekey_file privatekey);
       rc ← invoke (ssh_userauth_publickey (session device) privatekey);
       mret (rc, privatekey)
     else mret (rc, privatekey));
  invoke (ssh_key_free publickey);;
  invoke (ssh_key_free privatekey);;
  mret rc.

(** The read loop of [ubnt_exec_command]:
    [while (ssh_channel_is_open(channel) && !ssh_channel_is_eof(channel))],
    each read going to [buffer + 0]. *)
Fixpoint drain (fuel : nat) (channel : ssh_channel) (buffer : pointer) (nbytes : Z)
  : M W (pointer * Z) :=
  match fuel with
  | O => out_of_fuel
  | S fuel' =>
      is_open ← invoke (ssh_channel_is_open channel);
      if is_open =? 0 then mret (buffer, nbytes) else
      is_eof ← invoke (ssh_channel_is_eof channel);
      if negb (is_eof =? 0) then mret (buffer, nbytes) else
      pbytes ← invoke (ssh_channel_poll_timeout channel TIMEOUT 0);
      if pbytes >? 0 then
        '(data, n) ← invoke (ssh_channel_read_timeout channel pbytes 0 TIMEOUT);
        buffer ← filled buffer 0 data;
        drain fuel' channel buffer (nbytes + n)
      else mret (buffer, nbytes)
  end.

Definition ubnt_exec_command (fuel : nat) (device : UBNTDevice) (command : list ascii)
  : M W pointer :=
  channel ← invoke (ssh_channel_new (session device));
  rc ← invoke (ssh_channel_open_session channel);
  rc ← invoke (ssh_channel_request_exec channel command);
  let buffer := calloc buffer_size (Z.of_nat (nat_of_ascii "0")) in
  '(buffer, nbytes) ← drain fuel channel buffer 0;
  buffer ← lift (rstrip buffer);
  invoke (ssh_channel_send_eof channel);;
  invoke (ssh_channel_close channel);;
  invoke (ssh_channel_free channel);;
  mret buffer.

Definition ubnt_is_connected (device : UBNTDevice) : M W Z :=
  connected ← invoke (ssh_is_connected (session device));
  mret (if connected =? 0 then 1 else 0).

(** [char tmp_buffer[num_reads][SCP_READ_SIZE];] *)
Definition tmp_buffer_array (num_reads : Z) : ub block :=
  if num_reads >? 0 then Val (repeat None (Z.to_nat (num_reads * SCP_READ_SIZE))) else UB.

(** The [do ... while (ssh_scp_pull_request(scp) != SSH_SCP_REQUEST_EOF
    && i < num_reads)] loop; [n] bounds the iterations still to come. *)
Fixpoint scp_read_loop (n : nat) (scp : ssh_scp) (file_size num_reads : Z)
    (tmp_buffer : block) (rc i : Z) : M W (block * Z * Z) :=
  '(data, r) ← invoke (ssh_scp_read scp file_size);
  tmp_buffer ← lift (store_bytes tmp_buffer (i * SCP_READ_SIZE) data);
  let rc := rc + r in
  let i := i + 1 in
  rq ← invoke (ssh_scp_pull_request scp);
  if negb (rq =? SSH_SCP_REQUEST_EOF) && (i <? num_reads) then
    match n with
    | O => out_of_fuel
    | S n' => scp_read_loop n' scp file_size num_reads tmp_buffer rc i
    end
  else mret (tmp_buffer, rc, i).

(** Returns [rc] and the caller's buffer as the call leaves it. *)
Definition ubnt_copy_config_to_buffer (device : UBNTDevice) (buffer : pointer)
  : M W (Z * pointer) :=
  scp ← invoke (ssh_scp_new (session device) SSH_SCP_READ CONFIG);
  rc ← invoke (ssh_scp_init scp);
  '(rc, buffer) ←
    (if rc =? CONNECTION_OK then
       rc ← invoke (ssh_scp_pull_request scp);
       if rc =? SSH_SCP_REQUEST_NEWFILE then
         size ← invoke (ssh_scp_request_get_size scp);
         let file_size := to_int size in
         let num_reads := file_size ÷ SCP_READ_SIZE + 1 in
         tmp_buffer ← lift (tmp_buffer_array num_reads);
         invoke (ssh_scp_accept_request scp);;
         '(tmp_buffer, rc, i) ←
           scp_read_loop (Z.to_nat num_reads) scp file_size num_reads tmp_buffer 0 0;
         match buffer with
         | None => lift UB
         | Some dst => dst ← lift (memcpy dst tmp_buffer file_size); mret (rc, Some dst)
         end
       else mret (rc, buffer)
     else mret (rc, buffer));
  invoke (ssh_scp_close scp);;
  invoke (ssh_scp_free scp);;
  mret (rc, buffer).

(** The commands.  Each runs [ubnt_exec_command] and passes a result that
    is not null on; [free(output)] has no effect on what is returned. *)
Definition ubnt_wstalist (fuel : nat) (device : UBNTDevice) : M W pointer :=
  output ← ubnt_exec_command fuel device (lit "wstalist");
  match output with
  | Some _ => lift (strip output)
  | None => mret None
  end.

Definition ubnt_scan (fuel : nat) (device : UBNTDevice) : M W pointer :=
  output ← ubnt_exec_command fuel device (lit "iwlist ath0 scan | scanparser");
  match output with
  | Some _ => lift (strip output)
  | None => mret None
  end.

Definition ubnt_mca_status (fuel : nat) (device : UBNTDevice) : M W pointer :=
  output ← ubnt_exec_command fuel device (lit "mca-status");
  match output with
  | Some _ => r ← lift (mca_to_json output); mret r.2
  | None => mret None
  end.

(** [return output ? UBNT_SUCCESS : UBNT_ERROR;] *)
Definition ubnt_save (fuel : nat) (device : UBNTDevice) : M W Z :=
  output ← ubnt_exec_command fuel device (lit "cfgmtd -w -p /etc/");
  mret (match output with Some _ => UBNT_SUCCESS | None => UBNT_ERROR end).

End Client.

(** ** The header-only device.h

    Its [rstrip], [strip], [mca_to_json], [ubnt_is_connected] and read loop
    are the text of ubnt.c; [ubnt_connect_key] and [ubnt_exec_command]
    check every step. *)

Module Device_h.
Section Client.

Context {W : Type}.
Variable libssh : transport W.
#[local] Abbreviation invoke := (invoke libssh).

Definition ubnt_connect_key (device : UBNTDevice)
    (publickey_file privatekey_file : list ascii) : M W Z :=
  publickey ← invoke ssh_key_new;
  privatekey ← invoke ssh_key_new;
  '(rc, publickey) ← invoke (ssh_pki_import_pubkey_file publickey_file publickey);
  '(rc, privatekey) ←
    (if rc =? SSH_OK then
       rc ← invoke (ssh_connect (session device));
       if rc =? SSH_OK then
         rc ← invoke (ssh_userauth_try_publickey (session device) publickey);
         if rc =? SSH_AUTH_SUCCESS then
           '(rc, privatekey) ← invoke (ssh_pki_import_privkey_file privatekey_file privatekey);
           if rc =? SSH_OK then
             rc ← invoke (ssh_userauth_publickey (session device) privatekey);
             mret (rc, privatekey)
           else mret (rc, privatekey)
         else mret (rc, privatekey)
       else mret (rc, privatekey)
     else mret (rc, privatekey));
  invoke (ssh_key_free publickey);;
  invoke (ssh_key_free privatekey);;
  mret rc.

Definition ubnt_exec_command (fuel : nat) (device : UBNTDevice) (command : list ascii)
  : M W pointer :=
  channel ← invoke (ssh_channel_new (session device));
  match channel with
  | Some _ =>
      rc ← invoke (ssh_channel_open_session channel);
      buffer ←
        (if rc =? SSH_OK then
           rc ← invoke (ssh_channel_request_exec channel command);
           if rc =? SSH_OK then
             let buffer := calloc buffer_size (Z.of_nat (nat_of_ascii "0")) in
             '(buffer, nbytes) ← drain libssh fuel channel buffer 0;
             match buffer with
             | Some _ => lift (rstrip buffer)
             | None => mret buffer
             end
           else mret None
         else mret None);
      invoke (ssh_channel_send_eof channel);;
      invoke (ssh_channel_close channel);;
      invoke (ssh_channel_free channel);;
      mret buffer
  | None => mret None
  end.

(** [return output ? 1 : 0;] *)
Definition ubnt_save (fuel : nat) (device : UBNTDevice) : M W Z :=
  output ← ubnt_exec_command fuel device (lit "cfgmtd -w -p /etc/");
  mret (match output with Some _ => 1 | None => 0 end).

End Client.
End Device_h.

(** ** A scripted transport

    A libssh stand-in for running the client on concrete inputs: fixed
    return codes, and queues for what the remote side still has to send. *)

Record script : Type := {
  connected : Z;
  import_pubkey_rc : Z;
  connect_rc : Z;
  try_publickey_rc : Z;
  import_privkey_rc : Z;
  userauth_publickey_rc : Z;
  new_channel : ssh_channel;
  open_session_rc : Z;
  request_exec_rc : Z;
  scp_init_rc : Z;
  scp_size : Z
}.

Record remote : Type := Remote {
  output : list (list ascii);
  scp_requests : list Z;
  scp_chunks : list (list ascii)
}.

Definition scripted (s : script) : transport remote := fun R c =>
  match c in call R return remote -> R * remote with
  | ssh_is_connected _ => fun m => (connected s, m)
  | ssh_connect _ => fun m => (connect_rc s, m)
  | ssh_userauth_password _ _ => fun m => (SSH_AUTH_SUCCESS, m)
  | ssh_key_new => fun m => (Some 0%nat, m)
  | ssh_pki_import_pubkey_file _ k => fun m =>
      (import_pubkey_rc s, if import_pubkey_rc s =? SSH_OK then Some 1%nat else k, m)
  | ssh_userauth_try_publickey _ _ => fun m => (try_publickey_rc s, m)
  | ssh_pki_import_privkey_file _ k => fun m =>
      (import_privkey_rc s, if import_privkey_rc s =? SSH_OK then Some 2%nat else k, m)
  | ssh_userauth_publickey _ _ => fun m => (userauth_publickey_rc s, m)
  | ssh_key_free _ => fun m => (tt, m)
  | ssh_channel_new _ => fun m => (new_channel s, m)
  | ssh_channel_open_session _ => fun m => (open_session_rc s, m)
  | ssh_channel_request_exec _ _ => fun m => (request_exec_rc s, m)
  | ssh_channel_is_open _ => fun m =>
      (if (open_session_rc s =? SSH_OK) && (request_exec_rc s =? SSH_OK) then 1 else 0, m)
  | ssh_channel_is_eof _ => fun m => (match output m with [] => 1 | _ => 0 end, m)
  | ssh_channel_poll_timeout _ _ _ => fun m =>
      (match output m with [] => 0 | d :: _ => Z.of_nat (length d) end, m)
  | ssh_channel_read_timeout _ _ _ _ => fun m =>
      match output m with
      | [] => (([], 0), m)
      | d :: rest => ((d, Z.of_nat (length d)), Remote rest (scp_requests m) (scp_chunks m))
      end
  | ssh_channel_send_eof _ => fun m => (SSH_OK, m)
  | ssh_channel_close _ => fun m => (SSH_OK, m)
  | ssh_channel_free _ => fun m => (tt, m)
  | ssh_scp_new _ _ _ => fun m => (Some 0%nat, m)
  | ssh_scp_init _ => fun m => (scp_init_rc s, m)
  | ssh_scp_pull_request _ => fun m =>
      match scp_requests m with
      | [] => (SSH_SCP_REQUEST_EOF, m)
      | r :: rest => (r, Remote (output m) rest (scp_chunks m))
      end
  | ssh_scp_request_get_size _ => fun m => (scp_size s, m)
  | ssh_scp_accept_request _ => fun m => (SSH_OK, m)
  | ssh_scp_read _ _ => fun m =>
      match scp_chunks m with
      | [] => (([], SSH_ERROR), m)
      | d :: rest => ((d, Z.of_nat (length d)), Remote (output m) (scp_requests m) rest)
      end
  | ssh_scp_close _ => fun m => (SSH_OK, m)
  | ssh_scp_free _ => fun m => (tt, m)
  end.

(** A device whose every step succeeds. *)
Definition amenable : script := {|
  connected := 1;
  import_pubkey_rc := SSH_OK;
  connect_rc := SSH_OK;
  try_publickey_rc := SSH_AUTH_SUCCESS;
  import_privkey_rc := SSH_OK;
  userauth_publickey_rc := SSH_AUTH_SUCCESS;
  new_channel := Some 7%nat;
  open_session_rc := SSH_OK;
  request_exec_rc := SSH_OK;
  scp_init_rc := SSH_OK;
  scp_size := 0
|}.

(** The same device, but the public key file cannot be imported. *)
Definition no_public_key : script := {|
  connected := 1;
  import_pubkey_rc := SSH_ERROR;
  connect_rc := SSH_OK;
  try_publickey_rc := SSH_AUTH_SUCCESS;
  import_privkey_rc := SSH_OK;
  userauth_publickey_rc := SSH_AUTH_SUCCESS;
  new_channel := Some 7%nat;
  open_session_rc := SSH_OK;
  request_exec_rc := SSH_OK;
  scp_init_rc := SSH_OK;
  scp_size := 0
|}.

(** The same device, but a channel cannot open a session. *)
Definition no_session : script := {|
  connected := 1;
  import_pubkey_rc := SSH_OK;
  connect_rc := SSH_OK;
  try_publickey_rc := SSH_AUTH_SUCCESS;
  import_privkey_rc := SSH_OK;
  userauth_publickey_rc := SSH_AUTH_SUCCESS;
  new_channel := Some 7%nat;
  open_session_rc := SSH_ERROR;
  request_exec_rc := SSH_ERROR;
  scp_init_rc := SSH_OK;
  scp_size := 0
|}.

(** The same device, but no channel can be created. *)
Definition no_channel : script := {|
  connected := 1;
  import_pubkey_rc := SSH_OK;
  connect_rc := SSH_OK;
  try_publickey_rc := SSH_AUTH_SUCCESS;
  import_privkey_rc := SSH_OK;
  userauth_publickey_rc := SSH_AUTH_SUCCESS;
  new_channel := None;
  open_session_rc := SSH_ERROR;
  request_exec_rc := SSH_ERROR;
  scp_init_rc := SSH_OK;
  scp_size := 0
|}.

(** A device that offers a file of [size] bytes. *)
Definition offering (size : Z) : script := {|
  connected := 1;
  import_pubkey_rc := SSH_OK;
  connect_rc := SSH_OK;
  try_publickey_rc := SSH_AUTH_SUCCESS;
  import_privkey_rc := SSH_OK;
  userauth_publickey_rc := SSH_AUTH_SUCCESS;
  new_channel := Some 7%nat;
  open_session_rc := SSH_OK;
  request_exec_rc := SSH_OK;
  scp_init_rc := SSH_OK;
  scp_size := size
|}.

Definition start (m : remote) : world remote := World m [].
Definition idle : world remote := start (Remote [] [] []).

Definition device0 : UBNTDevice := {|
  host := lit "192.168.1.20";
  port := 22;
  username := lit "ubnt";
  session := Some 0%nat
|}.

(** ** Reading a trace *)

(** The name of the libssh function of a call. *)
Inductive fname : Set :=
| Fis_connected | Fconnect | Fuserauth_password | Fkey_new | Fimport_pubkey
| Ftry_publickey | Fimport_privkey | Fuserauth_publickey | Fkey_free
| Fchannel_new | Fopen_session | Frequest_exec | Fis_open | Fis_eof | Fpoll
| Fchannel_read | Fsend_eof | Fchannel_close | Fchannel_free
| Fscp_new | Fscp_init | Fpull_request | Fget_size | Faccept_request
| Fscp_read | Fscp_close | Fscp_free.

Definition fname_of {R : Type} (c : call R) : fname :=
  match c with
  | ssh_is_connected _ => Fis_connected
  | ssh_connect _ => Fconnect
  | ssh_userauth_password _ _ => Fuserauth_password
  | ssh_key_new => Fkey_new
  | ssh_pki_import_pubkey_file _ _ => Fimport_pubkey
  | ssh_userauth_try_publickey _ _ => Ftry_publickey
  | ssh_pki_import_privkey_file _ _ => Fimport_privkey
  | ssh_userauth_publickey _ _ => Fuserauth_publickey
  | ssh_key_free _ => Fkey_free
  | ssh_channel_new _ => Fchannel_new
  | ssh_channel_open_session _ => Fopen_session
  | ssh_channel_request_exec _ _ => Frequest_exec
  | ssh_channel_is_open _ => Fis_open
  | ssh_channel_is_eof _ => Fis_eof
  | ssh_channel_poll_timeout _ _ _ => Fpoll
  | ssh_channel_read_timeout _ _ _ _ => Fchannel_read
  | ssh_channel_send_eof _ => Fsend_eof
  | ssh_channel_close _ => Fchannel_close
  | ssh_channel_free _ => Fchannel_free
  | ssh_scp_new _ _ _ => Fscp_new
  | ssh_scp_init _ => Fscp_init
  | ssh_scp_pull_request _ => Fpull_request
  | ssh_scp_request_get_size _ => Fget_size
  | ssh_scp_accept_request _ => Faccept_request
  | ssh_scp_read _ _ => Fscp_read
  | ssh_scp_close _ => Fscp_close
  | ssh_scp_free _ => Fscp_free
  end.

#[global] Instance fname_eq_dec : EqDecision fname.
Proof. solve_decision. Defined.

(** The functions called, in order. *)
Definition names (t : list entry) : list fname :=
  map (fun e => fname_of (entry_call e)) t.

(** The chunks the channel reads of a trace put into the buffer, in order. *)
Definition chunk_of (e : entry) : option (list ascii) :=
  match entry_call e in call R return R -> option (list ascii) with
  | ssh_channel_read_timeout _ _ _ _ => fun r => Some r.1
  | _ => fun _ => None
  end (entry_answer e).

Definition chunks (t : list entry) : list (list ascii) := omap chunk_of t.

(** ** Vocabulary of the statements *)

(** [needle] occurs in [s] at offset [k]; [k] is its first occurrence. *)
Definition occurs_at (needle s : list ascii) (k : nat) : Prop :=
  take (length needle) (drop k s) = needle.

Definition first_occurrence (needle s : list ascii) (k : nat) : Prop :=
  occurs_at needle s k /\ forall k', (k' < k)%nat -> ~ occurs_at needle s k'.

(** A string between double quotes. *)
Definition quoted (s : string) : list ascii := DQ :: lit s ++ [DQ].

(** No character of the cells is one [strip] drops. *)
Definition keeps_all (cells : block) : bool :=
  forallb (fun x => match x with Some c => strip_keeps c | None => true end) cells.

(** The inputs of the examples: [key1=val1 LF key2=val2 CR LF] and
    [a=1, 2 LF b=3 LF]. *)
Definition two_lines : list ascii :=
  lit "key1=val1" ++ [LF] ++ lit "key2=val2" ++ [CR; LF].
Definition comma_value : list ascii :=
  lit "a=1, 2" ++ [LF] ++ lit "b=3" ++ [LF].

(** The [int] a logged call returned. *)
Definition return_code (e : entry) : option Z :=
  match entry_call e in call R return R -> option Z with
  | ssh_is_connected _ => fun r => Some r
  | ssh_connect _ => fun r => Some r
  | ssh_userauth_password _ _ => fun r => Some r
  | ssh_key_new => fun _ => None
  | ssh_pki_import_pubkey_file _ _ => fun r => Some r.1
  | ssh_userauth_try_publickey _ _ => fun r => Some r
  | ssh_pki_import_privkey_file _ _ => fun r => Some r.1
  | ssh_userauth_publickey _ _ => fun r => Some r
  | ssh_key_free _ => fun _ => None
  | ssh_channel_new _ => fun _ => None
  | ssh_channel_open_session _ => fun r => Some r
  | ssh_channel_request_exec _ _ => fun r => Some r
  | ssh_channel_is_open _ => fun r => Some r
  | ssh_channel_is_eof _ => fun r => Some r
  | ssh_channel_poll_timeout _ _ _ => fun r => Some r
  | ssh_channel_read_timeout _ _ _ _ => fun r => Some r.2
  | ssh_channel_send_eof _ => fun r => Some r
  | ssh_channel_close _ => fun r => Some r
  | ssh_channel_free _ => fun _ => None
  | ssh_scp_new _ _ _ => fun _ => None
  | ssh_scp_init _ => fun r => Some r
  | ssh_scp_pull_request _ => fun r => Some r
  | ssh_scp_request_get_size _ => fun r => Some r
  | ssh_scp_accept_request _ => fun r => Some r
  | ssh_scp_read _ _ => fun r => Some r.2
  | ssh_scp_close _ => fun r => Some r
  | ssh_scp_free _ => fun _ => None
  end (entry_answer e).

(** The codes the calls of [f] returned, in order. *)
Definition codes (f : fname) (t : list entry) : list Z :=
  omap (fun e => if decide (fname_of (entry_call e) = f) then return_code e else None) t.

(** [data] put at the start of [b], and one chunk after the other. *)
Definition overlay (b : block) (data : list ascii) : block :=
  map Some data ++ drop (length data) b.
Definition overlays (b : block) (cs : list (list ascii)) : block :=
  foldl overlay b cs.

(** The buffer [ubnt_exec_command] allocates. *)
Definition exec_buffer : block :=
  repeat (Some NUL) (Z.to_nat (buffer_size * Z.of_nat (nat_of_ascii "0"))).

(** The transport reports an active connection for the session of the
    device. *)
Definition reports_connection {W : Type} (libssh : transport W)
    (device : UBNTDevice) (w : world W) : Prop :=
  (libssh Z (ssh_is_connected (session device)) (lib w)).1 ≠ 0.

(** C6 as stated: the result is nonzero exactly when the transport reports
    a connection. *)
Definition nonzero_iff_connected : Prop :=
  forall (W : Type) (libssh : transport W) (device : UBNTDevice) (w : world W),
  exists r w', ubnt_is_connected libssh device w = Returns r w' /\
               (r ≠ 0 <-> reports_connection libssh device w).

(** C1 as stated: after two or more reads every byte of the returned buffer
    is a byte of the final chunk, where that chunk has it, or zero. *)
Definition only_final_chunk : Prop :=
  forall (W : Type) (libssh : transport W) (fuel : nat) (device : UBNTDevice)
         (command : list ascii) (w w' : world W) (p : pointer)
         (new : list entry) (cs : list (list ascii)) (last : list ascii),
  ubnt_exec_command libssh fuel device command w = Returns p w' ->
  trace w' = trace w ++ new -> chunks new = cs ++ [last] -> cs ≠ [] ->
  exists b, p = Some b /\
            forall i c, b !! i = Some (Some c) -> c = NUL \/ last !! i = Some c.



(** The trace a run left. *)
Definition trace_of {W A : Type} (r : result W A) : list entry :=
  match r with
  | Returns _ w | Undefined w => trace w
  | OutOfFuel => []
  end.

(** What a run of the client gave back: the value, if there is one. *)
Definition returned {W A : Type} (r : result W A) : option A :=
  match r with
  | Returns a _ => Some a
  | _ => None
  end.

(** The byte [i] of the block a run gave back. *)
Definition returned_byte {W : Type} (r : result W pointer) (i : nat) : option ascii :=
  match r with
  | Returns (Some b) _ => mjoin (b !! i)
  | _ => None
  end.

(** What a run of the client gave back: the string in the returned block,
    [Some None] for a null pointer, [None] when the run has no defined
    result. *)
Definition returned_string {W : Type} (r : result W pointer)
  : option (option (list ascii)) :=
  match r with
  | Returns p _ => match string_of p with Val s => Some s | UB => None end
  | _ => None
  end.

(** The libssh functions a run called, in order. *)
Definition calls_made {W A : Type} (r : result W A) : list fname :=
  match r with
  | Returns _ w | Undefined w => names (trace w)
  | OutOfFuel => []
  end.

(** The chunks a run read from its channel. *)
Definition chunks_read {W A : Type} (r : result W A) : list (list ascii) :=
  match r with
  | Returns _ w | Undefined w => chunks (trace w)
  | OutOfFuel => []
  end.

(** The transport, from the state [l] on, lets the read loop on [channel]
    take the chunks [cs] and then ends it.  For each chunk it reports the
    channel open and not at end-of-file, polls a positive count and gives
    the chunk to the read; after the last one it reports the channel
    closed, or at end-of-file, or polls no byte. *)
Fixpoint delivers {W : Type} (libssh : transport W) (channel : ssh_channel)
    (cs : list (list ascii)) (l : W) : Prop :=
  let (is_open, l1) := libssh _ (ssh_channel_is_open channel) l in
  let (is_eof, l2) := libssh _ (ssh_channel_is_eof channel) l1 in
  let (pbytes, l3) := libssh _ (ssh_channel_poll_timeout channel TIMEOUT 0) l2 in
  match cs with
  | [] => is_open = 0 \/ is_eof ≠ 0 \/ pbytes <= 0
  | c :: cs' =>
      is_open ≠ 0 /\ is_eof = 0 /\ 0 < pbytes /\
      let (r, l4) := libssh _ (ssh_channel_read_timeout channel pbytes 0 TIMEOUT) l3 in
      r.1 = c /\ delivers libssh channel cs' l4
  end.








(** The string [mca_to_json] passes over: the input with its first comma
    followed by a space turned into two dashes. *)
Definition mca_dashes (s : list ascii) : list ascii :=
  match find_first (lit ", ") s with
  | Some k => take k s ++ lit "--" ++ drop (k + 2) s
  | None => s
  end.

(** The characters the pass of [mca_to_json] emits for the characters [s],
    [prev] being the character in front of them: an equals sign and a comma
    go between double quotes, a line feed becomes a comma and an opening
    quote, a carriage return becomes a closing quote, but right after a line
    feed it is dropped together with the character behind it; any other
    character is copied. *)
Fixpoint mca_fields (prev : ascii) (s : list ascii) : list ascii :=
  match s with
  | [] => []
  | c :: s' =>
      if Ascii.eqb c "="%char then DQ :: ":"%char :: DQ :: mca_fields c s'
      else if Ascii.eqb c ","%char then DQ :: ","%char :: DQ :: mca_fields c s'
      else if Ascii.eqb c CR then
        if Ascii.eqb prev LF then
          match s' with
          | [] => []
          | c' :: s'' => mca_fields c' s''
          end
        else DQ :: mca_fields c s'
      else if Ascii.eqb c LF then ","%char :: DQ :: mca_fields c s'
      else c :: mca_fields c s'
  end.

(** The input starts with a carriage return. *)
Definition starts_with_cr (s : list ascii) : bool :=
  match s with
  | c :: _ => Ascii.eqb c CR
  | [] => false
  end.

(** The document for the string [s]: the emitted characters between the
    opening bracket, brace and quote and the closing quote, brace and
    bracket.  There is none when the input starts with a carriage return,
    and none when the document and its terminator do not fit the block of
    [mca_parsed_size] bytes. *)
Definition mca_json (s : list ascii) : option (list ascii) :=
  if starts_with_cr s then None else
  let text := mca_fields NUL (mca_dashes s) in
  if Z.of_nat (length text) + 7 <=? mca_parsed_size
  then Some (lit "[{" ++ [DQ] ++ text ++ [DQ] ++ lit "}]")
  else None.

(** The buffer after [text] has been written behind [out], and the index
    behind it; undefined when [text] does not fit in what is left. *)
Definition landed (out : list ascii) (junk : block) (text : list ascii)
  : ub (block * Z) :=
  if (length text <=? length junk)%nat
  then Val (map Some (out ++ text) ++ drop (length text) junk,
            Z.of_nat (length out + length text))
  else UB.

(** * Properties *)

Tactic Notation "ub_simpl" :=
  cbn [mbind mret fmap ub_bind ub_ret ub_fmap option_fmap option_map].
Tactic Notation "ub_simpl" "in" hyp(H) :=
  cbn [mbind mret fmap ub_bind ub_ret ub_fmap option_fmap option_map] in H.

(** ** Blocks and strings *)

Lemma to_int_small (z : Z) : - 2 ^ 31 <= z < 2 ^ 31 -> to_int z = z.
Proof.
  intros H. unfold to_int.
  rewrite Z.mod_small by lia. lia.
Qed.

Lemma eqb_NUL_false (c : ascii) : c ≠ NUL -> Ascii.eqb c NUL = false.
Proof. intros H. now apply Ascii.eqb_neq. Qed.

Lemma strlen_holding (s : list ascii) (rest : block) :
  NUL ∉ s -> strlen (holding s rest) = Val (length s).
Proof.
  unfold holding. induction s as [|c s IH]; intros H; simpl.
  - reflexivity.
  - apply not_elem_of_cons in H as [Hc Hs].
    rewrite eqb_NUL_false by congruence.
    rewrite IH by assumption. reflexivity.
Qed.

Lemma cstring_holding (s : list ascii) (rest : block) :
  NUL ∉ s -> cstring (holding s rest) = Val s.
Proof.
  unfold holding. induction s as [|c s IH]; intros H; simpl.
  - reflexivity.
  - apply not_elem_of_cons in H as [Hc Hs].
    rewrite eqb_NUL_false by congruence.
    rewrite IH by assumption. reflexivity.
Qed.

Lemma length_holding (s : list ascii) (rest : block) :
  length (holding s rest) = (length s + S (length rest))%nat.
Proof. unfold holding. rewrite length_app, length_map. reflexivity. Qed.

Lemma load_holding (s : list ascii) (rest : block) (i : nat) (c : ascii) :
  s !! i = Some c -> load (holding s rest) (Z.of_nat i) = Val c.
Proof.
  intros H. unfold load, holding.
  destruct (Z.leb_spec 0 (Z.of_nat i)); [|lia].
  rewrite Nat2Z.id.
  rewrite lookup_app_l by (rewrite length_map; eauto using lookup_lt_Some).
  rewrite list_lookup_fmap, H. reflexivity.
Qed.

Lemma load_negative (b : block) (i : Z) : i < 0 -> load b i = UB.
Proof. intros H. unfold load. destruct (Z.leb_spec 0 i); [lia | reflexivity]. Qed.

Lemma store_holding (s : list ascii) (rest : block) (i : nat) (c : ascii) :
  (i < length s)%nat ->
  store (holding s rest) (Z.of_nat i) c = Val (holding (<[i:=c]> s) rest).
Proof.
  intros H. unfold store. rewrite length_holding.
  destruct (Z.leb_spec 0 (Z.of_nat i)); [|lia].
  destruct (Z.ltb_spec (Z.of_nat i) (Z.of_nat (length s + S (length rest)))); [|lia].
  simpl. rewrite Nat2Z.id. unfold holding.
  rewrite insert_app_l by (rewrite length_map; assumption).
  rewrite list_fmap_insert. reflexivity.
Qed.

Lemma store_length (b b' : block) (i : Z) (c : ascii) :
  store b i c = Val b' -> length b' = length b.
Proof.
  unfold store. destruct (_ && _); [|discriminate].
  intros [= <-]. apply length_insert.
Qed.

Lemma store_lookup_other (b b' : block) (i : Z) (c : ascii) (k : nat) :
  store b i c = Val b' -> Z.of_nat k ≠ i -> b' !! k = b !! k.
Proof.
  unfold store. destruct (Z.leb_spec 0 i); simpl; [|discriminate].
  destruct (_ <? _); [|discriminate].
  intros [= <-] Hk. apply list_lookup_insert_ne. lia.
Qed.

Lemma store_out_of_bounds (b : block) (i : Z) (c : ascii) :
  Z.of_nat (length b) <= i -> store b i c = UB.
Proof.
  intros H. unfold store.
  destruct (Z.ltb_spec i (Z.of_nat (length b))); [lia|].
  now rewrite andb_false_r.
Qed.

(** ** Occurrences of a substring *)

Lemma is_prefix_spec (needle hay : list ascii) :
  is_prefix needle hay = true <-> take (length needle) hay = needle.
Proof.
  revert hay. induction needle as [|n ns IH]; intros hay; simpl.
  - split; reflexivity.
  - destruct hay as [|h hs]; simpl.
    + split; discriminate.
    + rewrite andb_true_iff, IH, Ascii.eqb_eq. split.
      * intros [-> ->]. reflexivity.
      * intros [= -> ->]. split; reflexivity.
Qed.

Lemma find_first_spec (needle s : list ascii) (k : nat) :
  find_first needle s = Some k <-> first_occurrence needle s k.
Proof.
  revert k. induction s as [|c s IH]; intros k; simpl.
  - destruct (is_prefix needle []) eqn:Hp.
    + apply is_prefix_spec in Hp. split.
      * intros [= <-]. split; [exact Hp | intros k' Hk'; lia].
      * intros [_ Hmin]. destruct k as [|k]; [reflexivity|].
        exfalso. apply (Hmin 0%nat); [lia | exact Hp].
    + split; [discriminate|]. intros [Hocc _].
      unfold occurs_at in Hocc. rewrite drop_nil in Hocc.
      apply is_prefix_spec in Hocc. congruence.
  - destruct (is_prefix needle (c :: s)) eqn:Hp.
    + apply is_prefix_spec in Hp. split.
      * intros [= <-]. split; [exact Hp | intros k' Hk'; lia].
      * intros [_ Hmin]. destruct k as [|k]; [reflexivity|].
        exfalso. apply (Hmin 0%nat); [lia | exact Hp].
    + destruct k as [|k].
      * split.
        -- destruct (find_first needle s); discriminate.
        -- intros [Hocc _]. unfold occurs_at in Hocc. rewrite drop_0 in Hocc.
           apply is_prefix_spec in Hocc. congruence.
      * split.
        -- destruct (find_first needle s) as [k0|] eqn:Hf; [|discriminate].
           intros [= ->]. destruct (proj1 (IH k) eq_refl) as [Hocc Hmin].
           split; [exact Hocc|].
           intros [|k'] Hk'.
           ++ intros Hocc'. unfold occurs_at in Hocc'. rewrite drop_0 in Hocc'.
              apply is_prefix_spec in Hocc'. congruence.
           ++ apply Hmin. lia.
        -- intros [Hocc Hmin].
           assert (find_first needle s = Some k) as ->; [|reflexivity].
           apply IH. split; [exact Hocc|].
           intros k' Hk'. apply (Hmin (S k')). lia.
Qed.

Lemma occurs_at_bound (needle s : list ascii) (k : nat) :
  (0 < length needle)%nat ->
  occurs_at needle s k -> (k + length needle <= length s)%nat.
Proof.
  unfold occurs_at. intros Hn H.
  apply (f_equal length) in H. rewrite length_take, length_drop in H. lia.
Qed.

Lemma insert_two (s : list ascii) (k : nat) (a b : ascii) :
  (k + 2 <= length s)%nat ->
  <[S k:=b]> (<[k:=a]> s) = take k s ++ [a; b] ++ drop (k + 2) s.
Proof.
  revert k. induction s as [|c s IH]; intros k H; simpl in H; [lia|].
  destruct k as [|k]; simpl.
  - destruct s as [|d s]; simpl in *; [lia|]. reflexivity.
  - f_equal. apply IH. lia.
Qed.

Lemma no_nul_check (s : list ascii) :
  forallb (fun c => negb (Ascii.eqb c NUL)) s = true -> NUL ∉ s.
Proof.
  induction s as [|c s IH]; simpl; intros H.
  - apply not_elem_of_nil.
  - apply andb_true_iff in H as [Hc Hs].
    apply not_elem_of_cons. split; [|auto].
    intros Heq. subst c. discriminate.
Qed.

(** ** mca_to_json: the substitution before the pass *)

Lemma mca_prepass_first_occurrence (s : list ascii) (rest : block) (k : nat) :
  NUL ∉ s -> first_occurrence (lit ", ") s k ->
  mca_prepass (holding s rest)
  = Val (holding (take k s ++ lit "--" ++ drop (k + 2) s) rest).
Proof.
  intros Hnul Hfirst.
  assert (k + 2 <= length s)%nat as Hk.
  { destruct Hfirst as [Hocc _]. apply occurs_at_bound in Hocc; simpl in *; lia. }
  unfold mca_prepass, strstr. rewrite cstring_holding by assumption. ub_simpl.
  apply find_first_spec in Hfirst. rewrite Hfirst. ub_simpl.
  unfold strncpy. change (take 2 (lit "--" ++ repeat NUL 2)) with (lit "--").
  change (lit "--") with ["-"%char; "-"%char]. cbn [store_bytes].
  rewrite store_holding by lia. ub_simpl.
  replace (Z.of_nat k + 1) with (Z.of_nat (S k)) by lia.
  rewrite store_holding by (rewrite length_insert; lia). ub_simpl.
  rewrite insert_two by lia. reflexivity.
Qed.

Lemma mca_prepass_no_occurrence (s : list ascii) (rest : block) :
  NUL ∉ s -> (forall k, ~ occurs_at (lit ", ") s k) ->
  mca_prepass (holding s rest) = Val (holding s rest).
Proof.
  intros Hnul Hnone.
  unfold mca_prepass, strstr. rewrite cstring_holding by assumption. ub_simpl.
  destruct (find_first (lit ", ") s) as [k|] eqn:Hf; [|reflexivity].
  apply find_first_spec in Hf as [Hocc _]. now apply Hnone in Hocc.
Qed.

(** C8. Before the character pass [mca_to_json] replaces the first comma
    followed by a space of its input by two dashes and nothing else: the
    string keeps what precedes the first occurrence and everything behind
    it, later occurrences included, and the pass then runs on the rewritten
    string.  A string without such a pair is left as it is.  For the two
    lines [a=1, 2] and [b=3], each ended by a line feed, the characters
    emitted for the value of [a] are [1--2]; writing ' for the double quote,
    the document is [{'a':'1--2,'b':'3,''}]. *)
Theorem mca_to_json_rewrites_first_comma_space :
  (forall (s : list ascii) (rest : block) (k : nat),
     NUL ∉ s -> first_occurrence (lit ", ") s k ->
     let s' := take k s ++ lit "--" ++ drop (k + 2) s in
     mca_prepass (holding s rest) = Val (holding s' rest) /\
     mca_to_json (Some (holding s rest))
     = (buffer ← mca_emit (holding s' rest) (to_int (Z.of_nat (length s)))
                  (repeat None (Z.to_nat mca_parsed_size));
        Val (holding s' rest, Some buffer)))
  /\ (forall (s : list ascii) (rest : block),
        NUL ∉ s -> (forall k, ~ occurs_at (lit ", ") s k) ->
        mca_prepass (holding s rest) = Val (holding s rest))
  /\ mca_document comma_value
     = Val (Some (lit "[{" ++ quoted "a" ++ lit ":" ++ [DQ] ++ lit "1--2" ++ lit ","
                  ++ quoted "b" ++ lit ":" ++ [DQ] ++ lit "3" ++ lit "," ++ [DQ]
                  ++ [DQ] ++ lit "}]")).
Proof.
  split; [|split].
  - intros s rest k Hnul Hfirst s'.
    pose proof (mca_prepass_first_occurrence s rest k Hnul Hfirst) as Hpre.
    split; [exact Hpre|].
    unfold mca_to_json. rewrite strlen_holding by assumption. ub_simpl.
    fold s' in Hpre. rewrite Hpre. reflexivity.
  - apply mca_prepass_no_occurrence.
  - vm_compute. reflexivity.
Qed.

(** The instance of C8: the pre-pass turns the lines [a=1, 2] and [b=3] into
    [a=1--2] and [b=3]. *)
Lemma mca_to_json_rewrites_first_comma_space_witness :
  (NUL ∉ comma_value) /\ first_occurrence (lit ", ") comma_value 3 /\
  mca_prepass (cstr comma_value)
  = Val (cstr (lit "a=1--2" ++ [LF] ++ lit "b=3" ++ [LF])).
Proof.
  assert (NUL ∉ comma_value) as Hnul by (apply no_nul_check; reflexivity).
  assert (first_occurrence (lit ", ") comma_value 3) as Hfirst
    by (apply find_first_spec; reflexivity).
  split; [exact Hnul|]. split; [exact Hfirst|].
  exact (proj1 (proj1 mca_to_json_rewrites_first_comma_space
                  comma_value [] 3%nat Hnul Hfirst)).
Defined.

(** ** mca_to_json: the two-line example *)

(** C2, as the code has it.  For [key1=val1 LF key2=val2 CR LF] the document
    is, writing ' for the double quote, [{'key1':'val1,'key2':'val2',''}]:
    the bare line feed emits a comma and an opening quote without closing the
    value, and the final CR LF closes val2 and opens one more, empty, field. *)
Theorem mca_to_json_two_lines :
  mca_document two_lines
  = Val (Some (lit "[{" ++ quoted "key1" ++ lit ":" ++ [DQ] ++ lit "val1" ++ lit ","
               ++ quoted "key2" ++ lit ":" ++ quoted "val2" ++ lit ","
               ++ [DQ] ++ [DQ] ++ lit "}]")).
Proof. vm_compute. reflexivity. Qed.

(** C2 as stated does not hold: the document for
    [key1=val1 LF key2=val2 CR LF] is not [{'key1':'val1','key2':'val2'}]. *)
Lemma mca_to_json_two_lines_not_as_specified :
  mca_document two_lines
  <> Val (Some (lit "[{" ++ quoted "key1" ++ lit ":" ++ quoted "val1" ++ lit ","
                ++ quoted "key2" ++ lit ":" ++ quoted "val2" ++ lit "}]")).
Proof. vm_compute. discriminate. Qed.

(** The document [{'key1':'val1','key2':'val2'}] is the one of the two lines
    separated by CR LF, without a line ending at the end. *)
Example mca_to_json_crlf_separated :
  mca_document (lit "key1=val1" ++ [CR; LF] ++ lit "key2=val2")
  = Val (Some (lit "[{" ++ quoted "key1" ++ lit ":" ++ quoted "val1" ++ lit ","
               ++ quoted "key2" ++ lit ":" ++ quoted "val2" ++ lit "}]")).
Proof. vm_compute. reflexivity. Qed.

(** ** mca_to_json: the loop needs no more fuel than the length *)

Lemma mca_switch_advances (str buffer buffer' : block) (i j i' j' : Z) :
  mca_switch str buffer i j = Val (buffer', i', j') -> i <= i'.
Proof.
  unfold mca_switch.
  destruct (load str i) as [c|]; ub_simpl; [|discriminate].
  repeat match goal with
         | |- (if ?b then _ else _) = _ -> _ => destruct b
         | |- (mbind _ ?m) = _ -> _ => destruct m; ub_simpl; [|discriminate]
         end;
  intros [= <- <- <-]; lia.
Qed.

Lemma mca_loop_fuel (fuel extra : nat) (str : block) (length : Z) (buffer : block)
    (i j : Z) :
  length - i <= Z.of_nat fuel ->
  mca_loop (fuel + extra) str length buffer i j = mca_loop fuel str length buffer i j.
Proof.
  revert buffer i j. induction fuel as [|fuel IH]; intros buffer i j Hfuel.
  - destruct extra as [|extra]; [reflexivity|]. cbn [Nat.add mca_loop].
    destruct (Z.ltb_spec i length); [lia | reflexivity].
  - cbn [Nat.add mca_loop]. destruct (i <? length); [|reflexivity].
    destruct (mca_switch str buffer i j) as [[[b i'] j']|] eqn:Hsw; ub_simpl;
      [|reflexivity].
    apply mca_switch_advances in Hsw. apply IH. lia.
Qed.

(** ** mca_to_json: a carriage return in front *)

Lemma strlen_spec (b : block) (n : nat) :
  strlen b = Val n ->
  b !! n = Some (Some NUL) /\
  forall i, (i < n)%nat -> exists c, b !! i = Some (Some c) /\ c ≠ NUL.
Proof.
  revert n. induction b as [|x b IH]; intros n; simpl; [discriminate|].
  destruct x as [c|]; [|discriminate].
  destruct (Ascii.eqb_spec c NUL) as [->|Hc].
  - intros [= <-]. split; [reflexivity | intros i Hi; lia].
  - destruct (strlen b) as [m|]; [|discriminate]. ub_simpl.
    intros [= <-]. destruct (IH m eq_refl) as [Hm Hlt]. split; [exact Hm|].
    intros [|i] Hi; simpl; [eauto | apply Hlt; lia].
Qed.

Lemma strlen_lt_length (b : block) (n : nat) :
  strlen b = Val n -> (n < length b)%nat.
Proof. intros H. apply strlen_spec in H as [H _]. eauto using lookup_lt_Some. Qed.

Lemma store_bytes_lookup_before (data : list ascii) (b b' : block) (off : Z) (k : nat) :
  store_bytes b off data = Val b' -> Z.of_nat k < off -> b' !! k = b !! k.
Proof.
  revert b off. induction data as [|c data IH]; intros b off; simpl.
  - intros [= <-] _. reflexivity.
  - destruct (store b off c) as [b1|] eqn:Hst; [|discriminate]. ub_simpl.
    intros Hrest Hk. rewrite (IH b1 (off + 1)) by (assumption || lia).
    eapply store_lookup_other; [exact Hst | lia].
Qed.

Lemma mca_prepass_keeps_leading_cr (b b' : block) :
  b !! 0%nat = Some (Some CR) -> mca_prepass b = Val b' ->
  b' !! 0%nat = Some (Some CR).
Proof.
  intros H0. unfold mca_prepass, strstr.
  destruct (cstring b) as [s|] eqn:Hs; [|discriminate]. ub_simpl.
  destruct (find_first (lit ", ") s) as [k|] eqn:Hf; ub_simpl.
  - destruct k as [|k].
    + exfalso. destruct b as [|x b]; [discriminate|].
      injection H0 as ->. simpl in Hs.
      destruct (cstring b) as [t|]; ub_simpl in Hs; [|discriminate].
      injection Hs as <-. simpl in Hf.
      destruct (find_first _ t); discriminate.
    + unfold strncpy. intros Hst. rewrite <- H0.
      eapply store_bytes_lookup_before; [exact Hst | lia].
  - intros [= <-]. exact H0.
Qed.

Lemma mca_switch_leading_cr (str buffer : block) (j : Z) :
  str !! 0%nat = Some (Some CR) -> mca_switch str buffer 0 j = UB.
Proof.
  intros H. unfold mca_switch.
  assert (load str 0 = Val CR) as ->.
  { unfold load. change (Z.to_nat 0) with 0%nat. rewrite H. reflexivity. }
  ub_simpl. change (Ascii.eqb CR "=") with false.
  change (Ascii.eqb CR ",") with false. change (Ascii.eqb CR CR) with true.
  cbv iota. rewrite load_negative by lia. reflexivity.
Qed.

(** C9, as the code has it.  With a carriage return as first character the
    switch evaluates [str[i - 1]] at [i = 0], one byte before the start of the
    input; no closing quote is defined for that case. *)
Theorem mca_to_json_leading_cr_undefined (b : block) :
  b !! 0%nat = Some (Some CR) -> Z.of_nat (length b) < 2 ^ 31 ->
  mca_to_json (Some b) = UB.
Proof.
  intros H0 Hlen. unfold mca_to_json.
  destruct (strlen b) as [n|] eqn:Hn; [|reflexivity]. ub_simpl.
  pose proof (strlen_lt_length b n Hn) as Hnlt.
  assert (n ≠ 0%nat) as Hnz.
  { intros ->. apply strlen_spec in Hn as [Hn _]. rewrite H0 in Hn. discriminate. }
  rewrite to_int_small by lia.
  change (malloc mca_parsed_size) with (Some (repeat (@None ascii) 2048)).
  destruct (mca_prepass b) as [b'|] eqn:Hpre; [|reflexivity]. ub_simpl.
  apply (mca_prepass_keeps_leading_cr b b' H0) in Hpre.
  unfold mca_emit.
  destruct (store _ 0 _) as [b0|]; [|reflexivity]. ub_simpl.
  destruct (store b0 1 _) as [b1|]; [|reflexivity]. ub_simpl.
  destruct (store b1 2 _) as [b2|]; [|reflexivity]. ub_simpl.
  destruct (Z.to_nat (Z.of_nat n)) as [|fuel] eqn:Hfuel; [lia|].
  cbn [mca_loop]. destruct (Z.ltb_spec 0 (Z.of_nat n)); [|lia].
  rewrite mca_switch_leading_cr by assumption. reflexivity.
Qed.

(** The failing input of C9: a carriage return, then [a=1]. *)
Lemma mca_to_json_leading_cr_undefined_witness :
  mca_to_json (Some (cstr (CR :: lit "a=1"))) = UB.
Proof.
  apply mca_to_json_leading_cr_undefined.
  - reflexivity.
  - vm_compute. reflexivity.
Defined.

(** ** rstrip *)

Lemma isspace_NUL : isspace NUL = false.
Proof. reflexivity. Qed.

Lemma spaces_no_nul (s : list ascii) : forallb isspace s = true -> NUL ∉ s.
Proof.
  induction s as [|c s IH]; simpl; intros H.
  - apply not_elem_of_nil.
  - apply andb_true_iff in H as [Hc Hs].
    apply not_elem_of_cons. split; [|auto].
    intros Heq. subst c. discriminate.
Qed.

Lemma load_lookup (b : block) (i : nat) (c : ascii) :
  b !! i = Some (Some c) -> load b (Z.of_nat i) = Val c.
Proof.
  intros H. unfold load. destruct (Z.leb_spec 0 (Z.of_nat i)); [|lia].
  rewrite Nat2Z.id, H. reflexivity.
Qed.

Lemma rstrip_scan_space (b : block) (i : nat) (c : ascii) :
  b !! i = Some (Some c) -> isspace c = true ->
  rstrip_scan b (S i) = rstrip_scan b i.
Proof.
  intros Hc Hsp. cbn [rstrip_scan].
  replace (Z.of_nat (S i) - 1) with (Z.of_nat i) by lia.
  rewrite (load_lookup b i c Hc). ub_simpl. rewrite Hsp. reflexivity.
Qed.

Lemma rstrip_scan_stop (b : block) (i : nat) (c : ascii) :
  b !! i = Some (Some c) -> isspace c = false ->
  rstrip_scan b (S i) = Val (Z.of_nat (S i)).
Proof.
  intros Hc Hsp. cbn [rstrip_scan].
  replace (Z.of_nat (S i) - 1) with (Z.of_nat i) by lia.
  rewrite (load_lookup b i c Hc). ub_simpl. rewrite Hsp. reflexivity.
Qed.

(** At [i = 0] the loop condition reads [str[-1]]. *)
Lemma rstrip_scan_start (b : block) : rstrip_scan b 0 = UB.
Proof. cbn [rstrip_scan]. rewrite load_negative by lia. reflexivity. Qed.

Lemma rstrip_scan_spaces (b : block) (i k : nat) :
  (forall j, (i <= j < i + k)%nat ->
     exists c, b !! j = Some (Some c) /\ isspace c = true) ->
  rstrip_scan b (i + k) = rstrip_scan b i.
Proof.
  induction k as [|k IH]; intros H.
  - now rewrite Nat.add_0_r.
  - replace (i + S k)%nat with (S (i + k)) by lia.
    destruct (H (i + k)%nat) as (c & Hc & Hsp); [lia|].
    rewrite (rstrip_scan_space b (i + k) c Hc Hsp).
    apply IH. intros j Hj. apply H. lia.
Qed.

Lemma lookup_holding_string (s : list ascii) (rest : block) (i : nat) (c : ascii) :
  s !! i = Some c -> holding s rest !! i = Some (Some c).
Proof.
  intros H. unfold holding.
  rewrite lookup_app_l by (rewrite length_map; eauto using lookup_lt_Some).
  rewrite list_lookup_fmap, H. reflexivity.
Qed.

Lemma forallb_lookup (f : ascii -> bool) (s : list ascii) (i : nat) (c : ascii) :
  forallb f s = true -> s !! i = Some c -> f c = true.
Proof.
  intros H Hi. rewrite forallb_forall in H. apply H.
  apply list_elem_of_In. eauto using list_elem_of_lookup_2.
Qed.

(** C7, where the code breaks it.  On a string that is not empty and holds
    white space only, the loop [while (isspace(str[i - 1])) i--] reaches
    [i = 0] and reads [str[-1]]: [rstrip] has no defined result there, where
    C7 promises the empty string. *)
Theorem rstrip_white_space_only_undefined (s : list ascii) (rest : block) :
  s ≠ [] -> forallb isspace s = true -> Z.of_nat (length s) < 2 ^ 31 ->
  rstrip (Some (holding s rest)) = UB.
Proof.
  intros Hne Hsp Hlen. unfold rstrip.
  rewrite strlen_holding by (apply spaces_no_nul; assumption). ub_simpl.
  rewrite to_int_small by lia.
  assert (0 < length s)%nat as Hpos by (destruct s; [congruence | simpl; lia]).
  destruct (Z.gtb_spec (Z.of_nat (length s)) 0); [|lia].
  rewrite Nat2Z.id.
  change (rstrip_scan (holding s rest) (length s))
    with (rstrip_scan (holding s rest) (0 + length s)).
  rewrite (rstrip_scan_spaces (holding s rest) 0 (length s)).
  - rewrite rstrip_scan_start. reflexivity.
  - intros j Hj. destruct (lookup_lt_is_Some_2 s j) as [c Hc]; [lia|].
    exists c. split; [now apply lookup_holding_string|].
    eapply forallb_lookup; eauto.
Qed.

(** The failing input of C7: one space. *)
Lemma rstrip_white_space_only_undefined_witness :
  rstrip (Some (cstr [SP])) = UB.
Proof.
  apply rstrip_white_space_only_undefined.
  - discriminate.
  - reflexivity.
  - vm_compute. reflexivity.
Defined.

Lemma store_middle (l1 l2 : block) (x : cell) (c : ascii) :
  store (l1 ++ x :: l2) (Z.of_nat (length l1)) c = Val (l1 ++ Some c :: l2).
Proof.
  unfold store. rewrite length_app. simpl.
  destruct (Z.leb_spec 0 (Z.of_nat (length l1))); [|lia].
  destruct (Z.ltb_spec (Z.of_nat (length l1)) (Z.of_nat (length l1 + S (length l2))));
    [|lia].
  simpl. rewrite Nat2Z.id.
  rewrite insert_app_r_alt by lia. rewrite Nat.sub_diag. reflexivity.
Qed.

(** Where [rstrip] is defined: a string with a character that is not white
    space loses the white space behind the last such character, and only
    that; the bytes behind the new terminator stay. *)
Lemma rstrip_trims (p ws : list ascii) (c : ascii) (rest : block) :
  NUL ∉ p -> isspace c = false -> c ≠ NUL -> forallb isspace ws = true ->
  Z.of_nat (length (p ++ c :: ws)) < 2 ^ 31 ->
  rstrip (Some (holding (p ++ c :: ws) rest))
  = Val (Some (holding (p ++ [c]) (tail (holding ws rest)))).
Proof.
  intros Hp Hc Hnul Hws Hlen. unfold rstrip.
  assert (NUL ∉ p ++ c :: ws) as Hall.
  { rewrite not_elem_of_app, not_elem_of_cons.
    auto using spaces_no_nul. }
  rewrite strlen_holding by assumption. ub_simpl.
  rewrite to_int_small by lia.
  rewrite length_app in *. simpl length in *.
  destruct (Z.gtb_spec (Z.of_nat (length p + S (length ws))) 0); [|lia].
  rewrite Nat2Z.id.
  replace (length p + S (length ws))%nat with (S (length p) + length ws)%nat by lia.
  rewrite rstrip_scan_spaces.
  - rewrite (rstrip_scan_stop _ (length p) c).
    + ub_simpl.
      assert (holding (p ++ c :: ws) rest
              = map Some (p ++ [c]) ++ holding ws rest) as ->.
      { unfold holding. rewrite !map_app. simpl. rewrite <- !app_assoc. reflexivity. }
      replace (Z.of_nat (S (length p))) with (Z.of_nat (length (map Some (p ++ [c]))))
        by (rewrite length_map, length_app; simpl; lia).
      destruct (holding ws rest) as [|x tl] eqn:Hh.
      { destruct ws; discriminate. }
      rewrite store_middle. reflexivity.
    + apply lookup_holding_string. rewrite lookup_app_r by lia.
      now rewrite Nat.sub_diag.
    + exact Hc.
  - intros j Hj.
    destruct (lookup_lt_is_Some_2 ws (j - S (length p))) as [w Hw]; [lia|].
    exists w. split.
    + apply lookup_holding_string. rewrite lookup_app_r by lia.
      replace (j - length p)%nat with (S (j - S (length p))) by lia. exact Hw.
    + eapply forallb_lookup; eauto.
Qed.

(** [rstrip] on the empty string does nothing. *)
Lemma rstrip_empty (rest : block) :
  rstrip (Some (holding [] rest)) = Val (Some (holding [] rest)).
Proof. reflexivity. Qed.

(** Where the first [rstrip] is defined by [rstrip_trims], a second one
    changes nothing. *)
Lemma rstrip_trims_twice (p ws : list ascii) (c : ascii) (rest : block) :
  NUL ∉ p -> isspace c = false -> c ≠ NUL -> forallb isspace ws = true ->
  Z.of_nat (length (p ++ c :: ws)) < 2 ^ 31 ->
  (rstrip (Some (holding (p ++ c :: ws) rest)) ≫= rstrip)
  = rstrip (Some (holding (p ++ c :: ws) rest)).
Proof.
  intros Hp Hc Hnul Hws Hlen.
  rewrite rstrip_trims by assumption. ub_simpl.
  change (p ++ [c]) with (p ++ c :: []).
  rewrite rstrip_trims; try assumption; try reflexivity.
  rewrite length_app in *. simpl length in *. lia.
Qed.

(** ** strip *)

Lemma keeps_all_lookup (cells : block) (i : nat) (c : ascii) :
  keeps_all cells = true -> cells !! i = Some (Some c) -> strip_keeps c = true.
Proof.
  unfold keeps_all. intros H Hi. rewrite forallb_forall in H.
  apply (H (Some c)). apply list_elem_of_In. eauto using list_elem_of_lookup_2.
Qed.

(** With no character dropped, [j] follows [i]. *)
Lemma strip_loop_keeps_all (str : block) (n i : nat) (out : block) :
  (forall k c, (i <= k < i + n)%nat -> str !! k = Some (Some c) -> strip_keeps c = true) ->
  strip_loop str n (Z.of_nat i) out (Z.of_nat i) = UB \/
  exists out', strip_loop str n (Z.of_nat i) out (Z.of_nat i) = Val (out', Z.of_nat (i + n))
               /\ length out' = length out.
Proof.
  revert i out. induction n as [|n IH]; intros i out H; cbn [strip_loop].
  - right. exists out. rewrite Nat.add_0_r. split; reflexivity.
  - destruct (load str (Z.of_nat i)) as [c|] eqn:Hload; ub_simpl; [|now left].
    assert (str !! i = Some (Some c)) as Hc.
    { unfold load in Hload. destruct (0 <=? Z.of_nat i); [|discriminate].
      rewrite Nat2Z.id in Hload.
      destruct (str !! i) as [[c'|]|]; congruence. }
    rewrite (H i c) by (lia || assumption).
    destruct (store out (Z.of_nat i) c) as [out1|] eqn:Hst; ub_simpl; [|now left].
    replace (Z.of_nat i + 1) with (Z.of_nat (S i)) by lia.
    destruct (IH (S i) out1) as [Hub | (out' & Hval & Hlen)].
    + intros k c' Hk. apply H. lia.
    + now left.
    + right. exists out'. rewrite Hval.
      replace (S i + n)%nat with (i + S n)%nat by lia.
      split; [reflexivity|]. rewrite Hlen. eauto using store_length.
Qed.

(** C10, where the code breaks it.  The copy loop runs over
    [strlen(str) + 100] bytes, the size of the new block.  When none of them
    is a line feed, a tab or a carriage return, every one is copied, [j]
    ends at the size of the block and [stripped_str[j] = 0] is written behind
    it; and a block with fewer bytes than that behind the string is read
    past its end.  Either way [strip] has no defined result. *)
Theorem strip_nothing_dropped_undefined (b : block) (n : nat) :
  strlen b = Val n -> Z.of_nat n + 100 < 2 ^ 31 ->
  keeps_all (take (n + 100) b) = true ->
  strip (Some b) = UB.
Proof.
  intros Hn Hlen Hkeep. unfold strip. rewrite Hn. ub_simpl.
  rewrite to_int_small by lia.
  unfold malloc. destruct (Z.ltb_spec (Z.of_nat n + 100) 0); [lia|].
  replace (Z.to_nat (Z.of_nat n + 100)) with (n + 100)%nat by lia.
  destruct (strip_loop_keeps_all b (n + 100) 0 (repeat None (n + 100)))
    as [Hub | (out' & Hval & Hout)].
  - intros k c Hk Hc. apply (keeps_all_lookup _ k c Hkeep).
    rewrite lookup_take_lt by lia. exact Hc.
  - change (Z.of_nat 0) with 0 in Hub. rewrite Hub. reflexivity.
  - change (Z.of_nat 0) with 0 in Hval. rewrite Hval. ub_simpl.
    rewrite store_out_of_bounds; [reflexivity|].
    rewrite Hout, repeat_length. lia.
Qed.

(** The failing input of C10: [abc], here at the start of a zeroed block
    with room to spare. *)
Lemma strip_nothing_dropped_undefined_witness :
  strip (Some (cstr_in (lit "abc") 400)) = UB.
Proof.
  apply (strip_nothing_dropped_undefined _ 3).
  - reflexivity.
  - lia.
  - reflexivity.
Defined.

(** The same string as a literal, in a block of its own size: the loop reads
    past the terminator. *)
Example strip_literal_undefined : strip (Some (cstr (lit "abc"))) = UB.
Proof. vm_compute. reflexivity. Qed.

(** A null pointer is given back. *)
Example strip_null : strip None = Val None.
Proof. reflexivity. Qed.

(** With a dropped character among the bytes read, and room behind the
    string, the result is the string without it. *)
Example strip_one_line_feed :
  (strip (Some (cstr_in (lit "a" ++ [LF] ++ lit "bc") 400)) ≫= string_of)
  = Val (Some (lit "abc")).
Proof. vm_compute. reflexivity. Qed.

(** Where [strip] is defined.  The loop copies, of the characters it reads,
    those it keeps. *)
Lemma strip_loop_filters (str : block) (cs : list ascii) (i : nat)
    (done : list ascii) (m : nat) :
  (forall k c, cs !! k = Some c -> str !! (i + k)%nat = Some (Some c)) ->
  (length (List.filter strip_keeps cs) <= m)%nat ->
  strip_loop str (length cs) (Z.of_nat i)
    (map Some done ++ repeat None m) (Z.of_nat (length done))
  = Val (map Some (done ++ List.filter strip_keeps cs)
           ++ repeat None (m - length (List.filter strip_keeps cs)),
         Z.of_nat (length done + length (List.filter strip_keeps cs))).
Proof.
  revert i done m. induction cs as [|c cs IH]; intros i done m Hstr Hm;
    cbn [length strip_loop List.filter].
  - rewrite app_nil_r, Nat.sub_0_r, Nat.add_0_r. reflexivity.
  - rewrite (load_lookup str i c)
      by (rewrite <- (Nat.add_0_r i); now apply Hstr).
    ub_simpl.
    replace (Z.of_nat i + 1) with (Z.of_nat (S i)) by lia.
    assert (forall k c', cs !! k = Some c' -> str !! (S i + k)%nat = Some (Some c'))
      as Hstr'.
    { intros k c' Hk. replace (S i + k)%nat with (i + S k)%nat by lia.
      now apply Hstr. }
    cbn [List.filter] in Hm.
    destruct (strip_keeps c); cbn [length] in *.
    + destruct m as [|m]; [lia|]. cbn [repeat].
      replace (Z.of_nat (length done)) with (Z.of_nat (length (map Some done)))
        by now rewrite length_map.
      rewrite store_middle. ub_simpl.
      replace (map Some done ++ Some c :: repeat None m)
        with (map Some (done ++ [c]) ++ repeat (@None ascii) m)
        by (rewrite map_app, <- app_assoc; reflexivity).
      replace (Z.of_nat (length (map Some done)) + 1)
        with (Z.of_nat (length (done ++ [c])))
        by (rewrite length_map, length_app; simpl; lia).
      rewrite IH by (assumption || lia).
      rewrite <- app_assoc, length_app. cbn [app length Nat.sub].
      do 3 f_equal. lia.
    + now rewrite IH by (assumption || lia).
Qed.

Lemma filter_keeps_all (cs : list ascii) :
  keeps_all (map Some cs) = false ->
  (length (List.filter strip_keeps cs) < length cs)%nat.
Proof.
  unfold keeps_all. induction cs as [|c cs IH]; cbn [map forallb List.filter];
    [discriminate|].
  destruct (strip_keeps c); cbn [andb length].
  - intros H. apply IH in H. lia.
  - intros _. pose proof (List.filter_length_le strip_keeps cs). lia.
Qed.

Lemma filter_no_nul (s : list ascii) : NUL ∉ s -> NUL ∉ List.filter strip_keeps s.
Proof.
  intros H Hin. apply H. apply list_elem_of_In in Hin.
  apply List.filter_In in Hin as [Hin _]. now apply list_elem_of_In.
Qed.

(** With 99 written bytes behind the terminator, one of the bytes read
    being a character [strip] drops, the result is the string without its
    line feeds, tabs and carriage returns. *)
Lemma strip_filters (s t : list ascii) (rest : block) :
  NUL ∉ s -> length t = 99%nat -> Z.of_nat (length s) + 100 < 2 ^ 31 ->
  keeps_all (map Some (s ++ NUL :: t)) = false ->
  (strip (Some (holding s (map Some t ++ rest))) ≫= string_of)
  = Val (Some (List.filter strip_keeps s)).
Proof.
  intros Hnul Ht Hlen Hdrop. unfold strip.
  rewrite strlen_holding by assumption. ub_simpl.
  rewrite to_int_small by lia.
  unfold malloc. destruct (Z.ltb_spec (Z.of_nat (length s) + 100) 0); [lia|].
  set (cs := s ++ NUL :: t).
  assert (length cs = Z.to_nat (Z.of_nat (length s) + 100)) as Hcs.
  { unfold cs. rewrite length_app. simpl. lia. }
  rewrite <- Hcs.
  pose proof (filter_keeps_all cs Hdrop) as Hshort.
  pose proof (strip_loop_filters (holding s (map Some t ++ rest)) cs 0 [] (length cs))
    as Hloop.
  cbn [map app length Nat.add] in Hloop. change (Z.of_nat 0) with 0 in Hloop.
  rewrite Hloop; [|intros k c Hk|lia].
  2:{ unfold holding.
      replace (map Some s ++ Some NUL :: map Some t ++ rest)
        with (map Some cs ++ rest)
        by (unfold cs; rewrite map_app, <- app_assoc; reflexivity).
      rewrite lookup_app_l by (rewrite length_map; eauto using lookup_lt_Some).
      now rewrite list_lookup_fmap, Hk. }
  ub_simpl.
  remember (length cs - length (List.filter strip_keeps cs))%nat as m eqn:Hm.
  destruct m as [|m]; [lia|]. cbn [repeat].
  replace (Z.of_nat (length (List.filter strip_keeps cs)))
    with (Z.of_nat (length (map Some (List.filter strip_keeps cs))))
    by now rewrite length_map.
  rewrite store_middle. ub_simpl. cbn [string_of].
  unfold cs. rewrite List.filter_app. cbn [List.filter].
  change (strip_keeps NUL) with true. cbv iota.
  rewrite map_app, <- app_assoc. cbn [map app].
  change (map Some (List.filter strip_keeps s)
          ++ Some NUL :: ?r) with (holding (List.filter strip_keeps s) r).
  rewrite cstring_holding by now apply filter_no_nul.
  reflexivity.
Qed.

(** ** Running the client: one call at a time *)

Lemma bind_invoke {W R A : Type} (libssh : transport W) (c : call R)
    (k : R -> M W A) (w : world W) :
  (invoke libssh c ≫= k) w
  = k (libssh R c (lib w)).1
      (World (libssh R c (lib w)).2 (trace w ++ [Entry c (libssh R c (lib w)).1])).
Proof.
  unfold mbind, M_bind, invoke. destruct (libssh R c (lib w)). reflexivity.
Qed.

Lemma bind_ret {W A B : Type} (a : A) (k : A -> M W B) (w : world W) :
  (mret a ≫= k) w = k a w.
Proof. reflexivity. Qed.

Lemma bind_assoc {W A B C : Type} (m : M W A) (f : A -> M W B) (g : B -> M W C)
    (w : world W) :
  ((m ≫= f) ≫= g) w = (m ≫= fun a => f a ≫= g) w.
Proof. unfold mbind, M_bind. destruct (m w); reflexivity. Qed.

(** One libssh call of the program under the cursor: name its answer and
    the state it leaves. *)
Ltac call_step :=
  rewrite bind_invoke;
  match goal with
  | |- context [fst (?f ?R ?c (lib ?w))] =>
      let r := fresh "r" in
      let l := fresh "l" in
      destruct (f R c (lib w)) as [r l]; cbn [fst snd lib trace]
  end.

Ltac trace_simpl :=
  cbn [trace lib]; rewrite <- ?app_assoc; cbn [app].

(** ** ubnt_is_connected *)

(** C6, as the code has it.  [ubnt_is_connected] returns the negation of
    what libssh reports: 0 when the transport reports an active connection
    for the session of the device, 1 when it reports none. *)
Theorem ubnt_is_connected_negates (W : Type) (libssh : transport W)
    (device : UBNTDevice) (w : world W) :
  exists r w',
    ubnt_is_connected libssh device w = Returns r w' /\
    (r = 0 <-> reports_connection libssh device w) /\
    (r = 1 <-> ~ reports_connection libssh device w) /\
    names (trace w') = names (trace w) ++ [Fis_connected].
Proof.
  unfold ubnt_is_connected, reports_connection.
  rewrite bind_invoke.
  destruct (libssh Z (ssh_is_connected (session device)) (lib w)) as [r l].
  cbn [fst snd]. eexists _, _. split; [reflexivity|].
  cbn [trace]. unfold names. rewrite map_app. cbn [map entry_call fname_of].
  destruct (Z.eqb_spec r 0); repeat split; intros; try lia; try congruence; tauto.
Qed.

(** C6 as stated fails: on a transport that reports a connection the
    result is 0. *)
Lemma ubnt_is_connected_not_nonzero_iff_connected : ~ nonzero_iff_connected.
Proof.
  intros H.
  destruct (H remote (scripted amenable) device0 (start (Remote [] [] [])))
    as (r & w' & Hrun & Hiff).
  injection Hrun as <- _.
  apply Hiff; [|reflexivity]. unfold reports_connection. simpl. lia.
Qed.

(** ** ubnt_connect_key *)


(** C3, where ubnt.c breaks it.  The result of the public key import is
    overwritten before anything looks at it: whatever the import returned,
    [ssh_connect] and [ssh_userauth_try_publickey] are called next, and the
    function returns the code of the try, or of [ssh_userauth_publickey]
    after a successful try; the code of a failed import is never
    returned.  Both keys are freed at the end. *)
Theorem ubnt_connect_key_ignores_import (W : Type) (libssh : transport W)
    (device : UBNTDevice) (publickey_file privatekey_file : list ascii)
    (w : world W) :
  exists rc w' new try_rc,
    ubnt_connect_key libssh device publickey_file privatekey_file w = Returns rc w' /\
    trace w' = trace w ++ new /\
    codes Ftry_publickey new = [try_rc] /\
    if try_rc =? SSH_AUTH_SUCCESS
    then names new = [Fkey_new; Fkey_new; Fimport_pubkey; Fconnect; Ftry_publickey;
                      Fimport_privkey; Fuserauth_publickey; Fkey_free; Fkey_free]
         /\ codes Fuserauth_publickey new = [rc]
    else names new = [Fkey_new; Fkey_new; Fimport_pubkey; Fconnect; Ftry_publickey;
                      Fkey_free; Fkey_free]
         /\ rc = try_rc.
Proof.
  unfold ubnt_connect_key.
  do 2 call_step. call_step. destruct r1 as [import_rc publickey].
  do 2 call_step. rename r2 into try_rc.
  destruct (try_rc =? SSH_AUTH_SUCCESS) eqn:Htry.
  - rewrite bind_assoc. call_step. destruct r2 as [rc0 privatekey].
    rewrite bind_assoc. call_step. rewrite bind_ret.
    do 2 call_step.
    eexists _, _, _, try_rc. split; [reflexivity|]. trace_simpl.
    split; [reflexivity|]. split; [reflexivity|]. rewrite Htry.
    split; reflexivity.
  - rewrite bind_ret. do 2 call_step.
    eexists _, _, _, try_rc. split; [reflexivity|]. trace_simpl.
    split; [reflexivity|]. split; [reflexivity|]. rewrite Htry.
    split; reflexivity.
Qed.

(** The failing input of C3: the import of the public key fails, and
    ubnt.c goes on to connect and authenticate, and reports success. *)
Example ubnt_connect_key_failed_import :
  let r := ubnt_connect_key (scripted no_public_key) device0
             (lit "id_rsa.pub") (lit "id_rsa") idle in
  returned r = Some SSH_AUTH_SUCCESS /\
  calls_made r = [Fkey_new; Fkey_new; Fimport_pubkey; Fconnect; Ftry_publickey;
                  Fimport_privkey; Fuserauth_publickey; Fkey_free; Fkey_free] /\
  match r with
  | Returns _ w => codes Fimport_pubkey (trace w) = [SSH_ERROR]
  | _ => False
  end.
Proof. vm_compute. repeat split; reflexivity. Qed.


(** ** The read loop *)

Lemma store_insert (b b' : block) (k : nat) (c : ascii) :
  store b (Z.of_nat k) c = Val b' -> b' = <[k:=Some c]> b /\ (k < length b)%nat.
Proof.
  unfold store. destruct (Z.leb_spec 0 (Z.of_nat k)); [|lia].
  destruct (Z.ltb_spec (Z.of_nat k) (Z.of_nat (length b))); [|discriminate].
  simpl. rewrite Nat2Z.id. intros [= <-]. split; [reflexivity | lia].
Qed.

Lemma store_bytes_spec (data : list ascii) (b b' : block) (k : nat) :
  store_bytes b (Z.of_nat k) data = Val b' ->
  b' = take k b ++ map Some data ++ drop (k + length data) b.
Proof.
  revert b k. induction data as [|c data IH]; intros b k; cbn [store_bytes].
  - intros [= <-]. simpl. rewrite Nat.add_0_r. now rewrite take_drop.
  - destruct (store b (Z.of_nat k) c) as [b1|] eqn:Hst; [|discriminate]. ub_simpl.
    apply store_insert in Hst as [-> Hk].
    replace (Z.of_nat k + 1) with (Z.of_nat (S k)) by lia.
    intros H. apply IH in H. subst b'.
    destruct (lookup_lt_is_Some_2 b k Hk) as [x Hx].
    rewrite (take_S_r (<[k:=Some c]> b) k (Some c))
      by (now apply list_lookup_insert_eq).
    rewrite take_insert_ge by lia.
    rewrite drop_insert_lt by lia.
    simpl. rewrite <- app_assoc. simpl.
    replace (S (k + length data)) with (k + S (length data))%nat by lia.
    reflexivity.
Qed.

Lemma store_bytes_overlay (data : list ascii) (b b' : block) :
  store_bytes b 0 data = Val b' -> b' = overlay b data.
Proof.
  intros H. change 0 with (Z.of_nat 0) in H.
  apply store_bytes_spec in H. subst b'. reflexivity.
Qed.

Lemma chunks_app (t1 t2 : list entry) : chunks (t1 ++ t2) = chunks t1 ++ chunks t2.
Proof. unfold chunks. apply omap_app. Qed.

Lemma names_app (t1 t2 : list entry) : names (t1 ++ t2) = names t1 ++ names t2.
Proof. unfold names. apply map_app. Qed.

Lemma chunks_around (e1 e2 e3 e4 e5 e6 : entry) (t : list entry) :
  chunk_of e1 = None -> chunk_of e2 = None -> chunk_of e3 = None ->
  chunk_of e4 = None -> chunk_of e5 = None -> chunk_of e6 = None ->
  chunks (e1 :: e2 :: e3 :: t ++ [e4; e5; e6]) = chunks t.
Proof.
  intros H1 H2 H3 H4 H5 H6.
  change (e1 :: e2 :: e3 :: t ++ [e4; e5; e6]) with ([e1; e2; e3] ++ t ++ [e4; e5; e6]).
  rewrite !chunks_app. unfold chunks at 1 3. cbn [omap list_omap].
  rewrite H1, H2, H3, H4, H5, H6. apply app_nil_r.
Qed.

Lemma names_around (e1 e2 e3 e4 e5 e6 : entry) (t : list entry) :
  names (e1 :: e2 :: e3 :: t ++ [e4; e5; e6])
  = [fname_of (entry_call e1); fname_of (entry_call e2); fname_of (entry_call e3)]
    ++ names t
    ++ [fname_of (entry_call e4); fname_of (entry_call e5); fname_of (entry_call e6)].
Proof.
  change (e1 :: e2 :: e3 :: t ++ [e4; e5; e6]) with ([e1; e2; e3] ++ t ++ [e4; e5; e6]).
  rewrite !names_app. reflexivity.
Qed.

(** Every read of the loop goes to the start of the buffer: what the loop
    leaves is the chunks laid over one another in the order read. *)
Lemma drain_overlays {W : Type} (libssh : transport W) (fuel : nat)
    (channel : ssh_channel) (b : block) (nbytes : Z) (w w' : world W)
    (r : pointer * Z) :
  drain libssh fuel channel (Some b) nbytes w = Returns r w' ->
  exists new, trace w' = trace w ++ new /\
              r.1 = Some (overlays b (chunks new)).
Proof.
  revert b nbytes w. induction fuel as [|fuel IH]; intros b nbytes w;
    cbn [drain]; [discriminate|].
  call_step. rename r0 into is_open.
  destruct (is_open =? 0).
  { intros [= <- <-]. eexists. split; [reflexivity|]. reflexivity. }
  call_step. rename r0 into is_eof.
  destruct (negb (is_eof =? 0)).
  { intros [= <- <-]. eexists. trace_simpl. split; [reflexivity|]. reflexivity. }
  call_step. rename r0 into pbytes.
  destruct (pbytes >? 0).
  2:{ intros [= <- <-]. eexists. trace_simpl. split; [reflexivity|]. reflexivity. }
  call_step. destruct r0 as [data n].
  unfold filled. unfold mbind at 1, M_bind at 1, lift at 1.
  destruct (store_bytes b 0 data) as [b1|] eqn:Hst; ub_simpl; [|discriminate].
  apply store_bytes_overlay in Hst. subst b1.
  intros Hrun. apply IH in Hrun as (new & Htrace & Hr).
  cbn [trace] in Htrace. rewrite <- !app_assoc in Htrace. cbn [app] in Htrace.
  eexists. split; [exact Htrace|].
  rewrite Hr. reflexivity.
Qed.

Lemma calloc_exec_buffer :
  calloc buffer_size (Z.of_nat (nat_of_ascii "0")) = Some exec_buffer.
Proof.
  unfold calloc, exec_buffer.
  replace ((buffer_size <? 0) || (Z.of_nat (nat_of_ascii "0") <? 0)) with false
    by (vm_compute; reflexivity).
  reflexivity.
Qed.

Lemma rstrip_not_null (b : block) (p : pointer) :
  rstrip (Some b) = Val p -> p ≠ None.
Proof.
  unfold rstrip. destruct (strlen b); ub_simpl; [|discriminate].
  destruct (_ >? 0).
  - destruct (rstrip_scan _ _); ub_simpl; [|discriminate].
    destruct (store _ _ _); ub_simpl; [|discriminate]. now intros [= <-].
  - now intros [= <-].
Qed.

(** What [ubnt_exec_command] of ubnt.c gives back when it returns: the
    trimmed overlay of the chunks, after the three opening calls and before
    the three closing ones. *)
Lemma ubnt_exec_command_returns {W : Type} (libssh : transport W) (fuel : nat)
    (device : UBNTDevice) (command : list ascii) (w w' : world W) (p : pointer) :
  ubnt_exec_command libssh fuel device command w = Returns p w' ->
  exists new,
    trace w' = trace w ++ new /\
    rstrip (Some (overlays exec_buffer (chunks new))) = Val p /\
    exists loop,
      names new = [Fchannel_new; Fopen_session; Frequest_exec] ++ loop
                  ++ [Fsend_eof; Fchannel_close; Fchannel_free].
Proof.
  unfold ubnt_exec_command. do 3 call_step.
  rewrite calloc_exec_buffer.
  unfold mbind at 1, M_bind at 1.
  destruct (drain _ _ _ _ _ _) as [[buffer nbytes] w1|w1|] eqn:Hdrain;
    [|discriminate|discriminate].
  apply drain_overlays in Hdrain as (new & Htrace & Hbuf). cbn [fst] in Hbuf.
  subst buffer. cbn [trace] in Htrace.
  unfold mbind at 1, M_bind at 1, lift at 1.
  destruct (rstrip _) as [p1|] eqn:Hrstrip; [|discriminate].
  do 3 call_step. intros [= <- <-]. cbn [trace]. rewrite Htrace.
  eexists. rewrite <- !app_assoc. cbn [app]. split; [reflexivity|].
  rewrite chunks_around by reflexivity. split; [exact Hrstrip|].
  rewrite names_around. cbn [entry_call fname_of].
  eexists. reflexivity.
Qed.

Lemma returned_string_inv {W : Type} (r : result W pointer) (s : option (list ascii)) :
  returned_string r = Some s ->
  exists p w', r = Returns p w' /\ string_of p = Val s.
Proof.
  destruct r as [p w'|w'|]; simpl; try discriminate.
  destruct (string_of p) as [s'|] eqn:Hs; [|discriminate].
  intros [= <-]. eauto.
Qed.

(** ** ubnt_exec_command after a failed step *)

(** C4, where ubnt.c breaks it.  The buffer is allocated and returned
    whatever [ssh_channel_new], [ssh_channel_open_session] and
    [ssh_channel_request_exec] gave: a run that returns never returns a
    null pointer.  The three closing calls are made on every run, with the
    read loop between the exec request and them. *)
Theorem ubnt_exec_command_never_null (W : Type) (libssh : transport W) (fuel : nat)
    (device : UBNTDevice) (command : list ascii) (w w' : world W) (p : pointer) :
  ubnt_exec_command libssh fuel device command w = Returns p w' ->
  p ≠ None /\
  exists new loop,
    trace w' = trace w ++ new /\
    names new = [Fchannel_new; Fopen_session; Frequest_exec] ++ loop
                ++ [Fsend_eof; Fchannel_close; Fchannel_free].
Proof.
  intros Hrun.
  apply ubnt_exec_command_returns in Hrun as (new & Htrace & Hrstrip & loop & Hnames).
  split; [eauto using rstrip_not_null|].
  exists new, loop. split; assumption.
Qed.

(** The failing input of C4: the channel cannot open a session, and the
    run gives back a buffer. *)
Lemma ubnt_exec_command_never_null_witness :
  exists p w',
    ubnt_exec_command (scripted no_session) 1 device0 (lit "mca-status") idle
    = Returns p w' /\ p ≠ None.
Proof.
  assert (returned_string
            (ubnt_exec_command (scripted no_session) 1 device0 (lit "mca-status") idle)
          = Some (Some [])) as E by (vm_compute; reflexivity).
  destruct (returned_string_inv _ _ E) as (p & w' & Hrun & _).
  exists p, w'. split; [exact Hrun|].
  exact (proj1 (ubnt_exec_command_never_null _ _ _ _ _ _ _ _ Hrun)).
Defined.

(** On the failing inputs of C4 ubnt.c returns the empty string, after the
    exec request and one look at the channel. *)
Example ubnt_exec_command_no_session :
  let r := ubnt_exec_command (scripted no_session) 1 device0 (lit "mca-status") idle in
  returned_string r = Some (Some []) /\
  calls_made r = [Fchannel_new; Fopen_session; Frequest_exec; Fis_open;
                  Fsend_eof; Fchannel_close; Fchannel_free].
Proof. vm_compute. split; reflexivity. Qed.

Example ubnt_exec_command_no_channel :
  let r := ubnt_exec_command (scripted no_channel) 1 device0 (lit "mca-status") idle in
  returned_string r = Some (Some []) /\
  calls_made r = [Fchannel_new; Fopen_session; Frequest_exec; Fis_open;
                  Fsend_eof; Fchannel_close; Fchannel_free].
Proof. vm_compute. split; reflexivity. Qed.

(** The copy of device.h does what C4 says: without a channel it returns
    null at once; with a channel and a failed open-session or exec request
    it returns null after the three closing calls; it reads only after both
    steps succeeded. *)
Theorem device_h_ubnt_exec_command_gated (W : Type) (libssh : transport W)
    (fuel : nat) (device : UBNTDevice) (command : list ascii) (w : world W) :
  let run := Device_h.ubnt_exec_command libssh fuel device command w in
  let (channel, l1) := libssh _ (ssh_channel_new (session device)) (lib w) in
  match channel with
  | None =>
      exists w', run = Returns None w' /\
                 names (trace w') = names (trace w) ++ [Fchannel_new]
  | Some _ =>
      let (rc1, l2) := libssh _ (ssh_channel_open_session channel) l1 in
      if rc1 =? SSH_OK then
        let (rc2, l3) := libssh _ (ssh_channel_request_exec channel command) l2 in
        if rc2 =? SSH_OK then True
        else exists w', run = Returns None w' /\
                        names (trace w')
                        = names (trace w)
                          ++ [Fchannel_new; Fopen_session; Frequest_exec;
                              Fsend_eof; Fchannel_close; Fchannel_free]
      else exists w', run = Returns None w' /\
                      names (trace w')
                      = names (trace w)
                        ++ [Fchannel_new; Fopen_session;
                            Fsend_eof; Fchannel_close; Fchannel_free]
  end.
Proof.
  unfold Device_h.ubnt_exec_command. cbv zeta.
  rewrite bind_invoke.
  destruct (libssh _ (ssh_channel_new (session device)) (lib w)) as [channel l1].
  cbn [fst snd]. destruct channel as [c|].
  2:{ eexists. split; [reflexivity|]. cbn [trace]. now rewrite names_app. }
  rewrite bind_invoke. cbn [lib trace].
  destruct (libssh _ (ssh_channel_open_session (Some c)) l1) as [rc1 l2].
  cbn [fst snd]. destruct (rc1 =? SSH_OK).
  2:{ rewrite bind_ret. do 3 call_step.
      eexists. split; [reflexivity|]. trace_simpl. now rewrite names_app. }
  rewrite bind_assoc, bind_invoke. cbn [lib trace].
  destruct (libssh _ (ssh_channel_request_exec (Some c) command) l2) as [rc2 l3].
  cbn [fst snd]. destruct (rc2 =? SSH_OK); [exact I|].
  rewrite bind_ret. do 3 call_step.
  eexists. split; [reflexivity|]. trace_simpl. now rewrite names_app.
Qed.

Example device_h_exec_command_no_session :
  let r := Device_h.ubnt_exec_command (scripted no_session) 1 device0
             (lit "mca-status") idle in
  returned_string r = Some None /\
  calls_made r = [Fchannel_new; Fopen_session;
                  Fsend_eof; Fchannel_close; Fchannel_free].
Proof. vm_compute. split; reflexivity. Qed.

Example device_h_exec_command_no_channel :
  let r := Device_h.ubnt_exec_command (scripted no_channel) 1 device0
             (lit "mca-status") idle in
  returned_string r = Some None /\ calls_made r = [Fchannel_new].
Proof. vm_compute. split; reflexivity. Qed.

(** ** What the read loop leaves in the buffer *)

Lemma overlays_snoc (b : block) (cs : list (list ascii)) (last : list ascii) :
  overlays b (cs ++ [last])
  = map Some last ++ drop (length last) (overlays b cs).
Proof. unfold overlays. rewrite foldl_snoc. reflexivity. Qed.

(** Chunks no longer than [n] leave the buffer as it was from [n] on. *)
Lemma overlays_beyond (cs : list (list ascii)) (b : block) (n : nat) :
  (forall c, c ∈ cs -> (length c <= n)%nat) ->
  drop n (overlays b cs) = drop n b.
Proof.
  revert b. induction cs as [|c cs IH]; intros b H; [reflexivity|].
  change (overlays b (c :: cs)) with (overlays (overlay b c) cs).
  rewrite IH by (intros c' Hc'; apply H; now right).
  assert (length c <= n)%nat as Hc by (apply H; now left).
  unfold overlay. rewrite drop_app_ge by (rewrite length_map; exact Hc).
  rewrite length_map, drop_drop. f_equal. lia.
Qed.

(** What [ubnt_exec_command] of device.h gives back when it returns: null
    without a read, or the trimmed overlay of the chunks. *)
Lemma device_h_ubnt_exec_command_returns {W : Type} (libssh : transport W)
    (fuel : nat) (device : UBNTDevice) (command : list ascii) (w w' : world W)
    (p : pointer) :
  Device_h.ubnt_exec_command libssh fuel device command w = Returns p w' ->
  exists new,
    trace w' = trace w ++ new /\
    (chunks new = [] \/ rstrip (Some (overlays exec_buffer (chunks new))) = Val p).
Proof.
  unfold Device_h.ubnt_exec_command. call_step. destruct r as [c|].
  2:{ intros [= <- <-]. eexists. split; [reflexivity|]. now left. }
  call_step. rename r into rc1. destruct (rc1 =? SSH_OK).
  2:{ rewrite bind_ret. do 3 call_step. intros [= <- <-].
      eexists. trace_simpl. split; [reflexivity|]. now left. }
  rewrite bind_assoc. call_step. rename r into rc2. destruct (rc2 =? SSH_OK).
  2:{ rewrite bind_ret. do 3 call_step. intros [= <- <-].
      eexists. trace_simpl. split; [reflexivity|]. now left. }
  rewrite calloc_exec_buffer. rewrite bind_assoc.
  unfold mbind at 1, M_bind at 1.
  destruct (drain _ _ _ _ _ _) as [[buffer nbytes] w1|w1|] eqn:Hdrain;
    [|discriminate|discriminate].
  apply drain_overlays in Hdrain as (new & Htrace & Hbuf). cbn [fst] in Hbuf.
  subst buffer. cbn [trace] in Htrace.
  unfold mbind at 1, M_bind at 1, lift at 1.
  destruct (rstrip _) as [p1|] eqn:Hrstrip; [|discriminate].
  do 3 call_step. intros [= <- <-]. cbn [trace]. rewrite Htrace.
  eexists. rewrite <- !app_assoc. cbn [app]. split; [reflexivity|].
  right. rewrite chunks_around by reflexivity. exact Hrstrip.
Qed.

(** ** ubnt_exec_command on a transport that ends the loop *)

Lemma store_bytes_fits (data : list ascii) (b : block) (k : nat) :
  (k + length data <= length b)%nat ->
  exists b', store_bytes b (Z.of_nat k) data = Val b'.
Proof.
  revert b k. induction data as [|c data IH]; intros b k Hfit; cbn [store_bytes].
  - eauto.
  - cbn [length] in Hfit. unfold store.
    destruct (Z.leb_spec 0 (Z.of_nat k)); [|lia].
    destruct (Z.ltb_spec (Z.of_nat k) (Z.of_nat (length b))); [|lia].
    cbn [andb]. ub_simpl.
    replace (Z.of_nat k + 1) with (Z.of_nat (S k)) by lia.
    apply IH. rewrite length_insert. lia.
Qed.

Lemma store_bytes_overlay_fits (data : list ascii) (b : block) :
  (length data <= length b)%nat -> store_bytes b 0 data = Val (overlay b data).
Proof.
  intros Hfit. destruct (store_bytes_fits data b 0 Hfit) as [b' Hst].
  change (Z.of_nat 0) with 0 in Hst. rewrite Hst.
  apply store_bytes_overlay in Hst. now subst b'.
Qed.

Lemma overlay_length (b : block) (data : list ascii) :
  (length data <= length b)%nat -> length (overlay b data) = length b.
Proof.
  intros H. unfold overlay. rewrite length_app, length_map, length_drop. lia.
Qed.

(** The read loop returns on a transport that ends it: with more fuel than
    chunks, each chunk fitting the buffer, it returns the chunks laid over
    one another. *)
Lemma drain_delivers {W : Type} (libssh : transport W) (channel : ssh_channel)
    (cs : list (list ascii)) :
  forall (fuel : nat) (b : block) (nbytes : Z) (w : world W),
    delivers libssh channel cs (lib w) ->
    (length cs < fuel)%nat ->
    (forall c, c ∈ cs -> (length c <= length b)%nat) ->
    exists n w' new,
      drain libssh fuel channel (Some b) nbytes w
      = Returns (Some (overlays b cs), n) w' /\
      trace w' = trace w ++ new /\ chunks new = cs.
Proof.
  induction cs as [|c cs IH]; intros fuel b nbytes w Hd Hfuel Hfit;
    (destruct fuel as [|fuel]; [simpl in Hfuel; lia|]); cbn [drain delivers] in *.
  - rewrite bind_invoke.
    destruct (libssh _ (ssh_channel_is_open channel) (lib w)) as [is_open l1].
    cbn [fst snd].
    destruct (Z.eqb_spec is_open 0) as [Hopen|Hopen].
    { eexists _, _, _. split; [reflexivity|]. split; reflexivity. }
    rewrite bind_invoke. cbn [lib trace].
    destruct (libssh _ (ssh_channel_is_eof channel) l1) as [is_eof l2].
    cbn [fst snd].
    destruct (Z.eqb_spec is_eof 0) as [Heof|Heof]; cbn [negb].
    2:{ eexists _, _, _. split; [reflexivity|]. trace_simpl. split; reflexivity. }
    rewrite bind_invoke. cbn [lib trace].
    destruct (libssh _ (ssh_channel_poll_timeout channel TIMEOUT 0) l2) as [pbytes l3].
    cbn [fst snd].
    destruct (Z.gtb_spec pbytes 0) as [Hpoll|Hpoll].
    { exfalso. destruct Hd as [Hd|[Hd|Hd]]; [congruence | congruence | lia]. }
    eexists _, _, _. split; [reflexivity|]. trace_simpl. split; reflexivity.
  - rewrite bind_invoke.
    destruct (libssh _ (ssh_channel_is_open channel) (lib w)) as [is_open l1].
    cbn [fst snd].
    destruct (libssh _ (ssh_channel_is_eof channel) l1) as [is_eof l2] eqn:E2.
    destruct (libssh _ (ssh_channel_poll_timeout channel TIMEOUT 0) l2)
      as [pbytes l3] eqn:E3.
    destruct Hd as (Hopen & Heof & Hpoll & Hd).
    destruct (Z.eqb_spec is_open 0) as [|_]; [congruence|].
    rewrite bind_invoke. cbn [lib trace]. rewrite E2. cbn [fst snd].
    destruct (Z.eqb_spec is_eof 0) as [_|]; [|congruence]. cbn [negb].
    rewrite bind_invoke. cbn [lib trace]. rewrite E3. cbn [fst snd].
    destruct (Z.gtb_spec pbytes 0) as [_|]; [|lia].
    rewrite bind_invoke. cbn [lib trace].
    destruct (libssh _ (ssh_channel_read_timeout channel pbytes 0 TIMEOUT) l3)
      as [[data n] l4].
    cbn [fst snd] in *. destruct Hd as [-> Hd].
    assert (length c <= length b)%nat as Hdata by (apply Hfit; now left).
    unfold filled. unfold mbind at 1, M_bind at 1, lift at 1.
    rewrite store_bytes_overlay_fits by exact Hdata. ub_simpl.
    match goal with
    | |- context [drain _ _ _ _ _ ?w1] =>
        destruct (IH fuel (overlay b c) (nbytes + n) w1)
          as (n' & w' & new & Hrun & Htrace & Hchunks)
    end.
    + exact Hd.
    + simpl in Hfuel. lia.
    + intros c0 Hc. rewrite overlay_length by exact Hdata. apply Hfit. now right.
    + rewrite Hrun. eexists _, _, _. split; [reflexivity|].
      cbn [trace] in Htrace. rewrite <- !app_assoc in Htrace. cbn [app] in Htrace.
      split; [exact Htrace|].
      change (chunks (?e1 :: ?e2 :: ?e3 :: ?e4 :: new))
        with (c :: chunks new).
      now rewrite Hchunks.
Qed.

(** What the two copies of [ubnt_exec_command] do on a transport that ends
    the read loop after the chunks [cs]. *)
Lemma ubnt_exec_command_delivers {W : Type} (libssh : transport W) (fuel : nat)
    (device : UBNTDevice) (command : list ascii) (w : world W)
    (channel : ssh_channel) (rc1 rc2 : Z) (l1 l2 l3 : W) (cs : list (list ascii)) :
  libssh _ (ssh_channel_new (session device)) (lib w) = (channel, l1) ->
  libssh _ (ssh_channel_open_session channel) l1 = (rc1, l2) ->
  libssh _ (ssh_channel_request_exec channel command) l2 = (rc2, l3) ->
  delivers libssh channel cs l3 ->
  (length cs < fuel)%nat ->
  (forall c, c ∈ cs -> (length c <= length exec_buffer)%nat) ->
  match rstrip (Some (overlays exec_buffer cs)) with
  | Val p =>
      exists w' new,
        ubnt_exec_command libssh fuel device command w = Returns p w' /\
        trace w' = trace w ++ new /\ chunks new = cs
  | UB => exists w', ubnt_exec_command libssh fuel device command w = Undefined w'
  end.
Proof.
  intros H1 H2 H3 Hd Hfuel Hfit.
  assert (exists w1 new,
            ubnt_exec_command libssh fuel device command w
            = (buffer ← lift (rstrip (Some (overlays exec_buffer cs)));
               invoke libssh (ssh_channel_send_eof channel);;
               invoke libssh (ssh_channel_close channel);;
               invoke libssh (ssh_channel_free channel);;
               mret buffer) w1 /\
            trace w1 = trace w ++ [Entry (ssh_channel_new (session device)) channel;
                                   Entry (ssh_channel_open_session channel) rc1;
                                   Entry (ssh_channel_request_exec channel command) rc2]
                               ++ new /\
            chunks new = cs) as (w1 & new & -> & Htrace & Hchunks).
  { unfold ubnt_exec_command.
    rewrite bind_invoke, H1. cbn [fst snd].
    rewrite bind_invoke. cbn [lib trace]. rewrite H2. cbn [fst snd].
    rewrite bind_invoke. cbn [lib trace]. rewrite H3. cbn [fst snd].
    rewrite calloc_exec_buffer.
    unfold mbind at 1, M_bind at 1.
    match goal with
    | |- context [drain _ _ _ _ _ ?w1] =>
        destruct (drain_delivers libssh channel cs fuel exec_buffer 0 w1 Hd Hfuel Hfit)
          as (n & w' & new & Hrun & Htrace & Hchunks)
    end.
    rewrite Hrun. exists w', new. split; [reflexivity|].
    cbn [trace] in Htrace. rewrite <- !app_assoc in Htrace. cbn [app] in Htrace.
    auto. }
  unfold mbind at 1, M_bind at 1, lift at 1.
  destruct (rstrip (Some (overlays exec_buffer cs))) as [p|]; [|eexists; reflexivity].
  do 3 call_step. eexists _, _. split; [reflexivity|].
  cbn [trace]. rewrite Htrace. rewrite <- !app_assoc. cbn [app].
  split; [reflexivity|].
  rewrite chunks_around by reflexivity. exact Hchunks.
Qed.

Lemma device_h_ubnt_exec_command_delivers {W : Type} (libssh : transport W)
    (fuel : nat) (device : UBNTDevice) (command : list ascii) (w : world W)
    (channel : ssh_channel) (l1 l2 l3 : W) (cs : list (list ascii)) :
  libssh _ (ssh_channel_new (session device)) (lib w) = (channel, l1) ->
  libssh _ (ssh_channel_open_session channel) l1 = (SSH_OK, l2) ->
  libssh _ (ssh_channel_request_exec channel command) l2 = (SSH_OK, l3) ->
  channel ≠ None ->
  delivers libssh channel cs l3 ->
  (length cs < fuel)%nat ->
  (forall c, c ∈ cs -> (length c <= length exec_buffer)%nat) ->
  match rstrip (Some (overlays exec_buffer cs)) with
  | Val p =>
      exists w' new,
        Device_h.ubnt_exec_command libssh fuel device command w = Returns p w' /\
        trace w' = trace w ++ new /\ chunks new = cs
  | UB =>
      exists w', Device_h.ubnt_exec_command libssh fuel device command w = Undefined w'
  end.
Proof.
  intros H1 H2 H3 Hchannel Hd Hfuel Hfit.
  assert (exists w1 new,
            Device_h.ubnt_exec_command libssh fuel device command w
            = (buffer ← lift (rstrip (Some (overlays exec_buffer cs)));
               invoke libssh (ssh_channel_send_eof channel);;
               invoke libssh (ssh_channel_close channel);;
               invoke libssh (ssh_channel_free channel);;
               mret buffer) w1 /\
            trace w1 = trace w ++ [Entry (ssh_channel_new (session device)) channel;
                                   Entry (ssh_channel_open_session channel) SSH_OK;
                                   Entry (ssh_channel_request_exec channel command) SSH_OK]
                               ++ new /\
            chunks new = cs) as (w1 & new & -> & Htrace & Hchunks).
  { unfold Device_h.ubnt_exec_command.
    rewrite bind_invoke, H1. cbn [fst snd].
    destruct channel as [k|]; [|congruence].
    rewrite bind_invoke. cbn [lib trace]. rewrite H2. cbn [fst snd].
    change (SSH_OK =? SSH_OK) with true. cbv iota.
    rewrite bind_assoc, bind_invoke. cbn [lib trace]. rewrite H3. cbn [fst snd].
    change (SSH_OK =? SSH_OK) with true. cbv iota.
    rewrite calloc_exec_buffer. rewrite bind_assoc.
    unfold mbind at 1, M_bind at 1.
    match goal with
    | |- context [drain _ _ _ _ _ ?w1] =>
        destruct (drain_delivers libssh (Some k) cs fuel exec_buffer 0 w1 Hd Hfuel Hfit)
          as (n & w' & new & Hrun & Htrace & Hchunks)
    end.
    rewrite Hrun. exists w', new. split; [reflexivity|].
    cbn [trace] in Htrace. rewrite <- !app_assoc in Htrace. cbn [app] in Htrace.
    auto. }
  unfold mbind at 1, M_bind at 1, lift at 1.
  destruct (rstrip (Some (overlays exec_buffer cs))) as [p|]; [|eexists; reflexivity].
  do 3 call_step. eexists _, _. split; [reflexivity|].
  cbn [trace]. rewrite Htrace. rewrite <- !app_assoc. cbn [app].
  split; [reflexivity|].
  rewrite chunks_around by reflexivity. exact Hchunks.
Qed.

Lemma exec_buffer_length_nat : (6 <= length exec_buffer)%nat.
Proof.
  unfold exec_buffer. rewrite repeat_length.
  assert (6 <= buffer_size * Z.of_nat (nat_of_ascii "0")) by (vm_compute; discriminate).
  lia.
Qed.

(** C1, as the code has it.  Every read goes to the start of the buffer, in
    ubnt.c and in device.h alike.  First part: whenever a run returns after
    one or more reads, the buffer it returns is the final chunk at its
    start and, from the length of the final chunk on, what the earlier
    reads left there, trimmed by [rstrip]; it holds the final chunk and
    zeros only when no earlier chunk is longer than the final one.  Second
    part: the run does return that buffer.  On a transport that lets the
    loop read the chunks [cs] and then ends it ([delivers]), with more fuel
    than chunks and every chunk fitting the buffer, the call returns the
    chunks laid over one another and trimmed, where [rstrip] is defined on
    them, and has no defined result where [rstrip] has none: on a buffer of
    white space only.  The copy of device.h does the same once the channel
    exists and both requests succeeded. *)
Theorem exec_command_overlays_chunks :
  (forall (W : Type) (libssh : transport W) (fuel : nat) (device : UBNTDevice)
          (command : list ascii) (w w' : world W) (p : pointer)
          (new : list entry) (cs : list (list ascii)) (last : list ascii),
     ubnt_exec_command libssh fuel device command w = Returns p w' \/
     Device_h.ubnt_exec_command libssh fuel device command w = Returns p w' ->
     trace w' = trace w ++ new ->
     chunks new = cs ++ [last] ->
     rstrip (Some (map Some last ++ drop (length last) (overlays exec_buffer cs)))
     = Val p /\
     ((forall c, c ∈ cs -> (length c <= length last)%nat) ->
      rstrip (Some (map Some last ++ drop (length last) exec_buffer)) = Val p))
  /\
  (forall (W : Type) (libssh : transport W) (fuel : nat) (device : UBNTDevice)
          (command : list ascii) (w : world W) (cs : list (list ascii)),
     let (channel, l1) := libssh _ (ssh_channel_new (session device)) (lib w) in
     let (rc1, l2) := libssh _ (ssh_channel_open_session channel) l1 in
     let (rc2, l3) := libssh _ (ssh_channel_request_exec channel command) l2 in
     delivers libssh channel cs l3 ->
     (length cs < fuel)%nat ->
     (forall c, c ∈ cs -> (length c <= length exec_buffer)%nat) ->
     match rstrip (Some (overlays exec_buffer cs)) with
     | Val p =>
         (exists w' new,
            ubnt_exec_command libssh fuel device command w = Returns p w' /\
            trace w' = trace w ++ new /\ chunks new = cs) /\
         (channel ≠ None -> rc1 = SSH_OK -> rc2 = SSH_OK ->
          exists w' new,
            Device_h.ubnt_exec_command libssh fuel device command w = Returns p w' /\
            trace w' = trace w ++ new /\ chunks new = cs)
     | UB =>
         (exists w', ubnt_exec_command libssh fuel device command w = Undefined w') /\
         (channel ≠ None -> rc1 = SSH_OK -> rc2 = SSH_OK ->
          exists w',
            Device_h.ubnt_exec_command libssh fuel device command w = Undefined w')
     end).
Proof.
  split.
  - intros W libssh fuel device command w w' p new cs last Hrun Htrace Hchunks.
    assert (rstrip (Some (overlays exec_buffer (chunks new))) = Val p) as Hp.
    { destruct Hrun as [Hrun|Hrun].
      - apply ubnt_exec_command_returns in Hrun as (new' & Htrace' & Hp & _).
        rewrite Htrace in Htrace'. apply app_inv_head in Htrace'. now subst new'.
      - apply device_h_ubnt_exec_command_returns in Hrun as (new' & Htrace' & Hp).
        rewrite Htrace in Htrace'. apply app_inv_head in Htrace'. subst new'.
        destruct Hp as [Hnone|Hp]; [|exact Hp].
        rewrite Hnone in Hchunks. now destruct cs. }
    rewrite Hchunks, overlays_snoc in Hp. split; [exact Hp|].
    intros Hshort. rewrite <- (overlays_beyond cs exec_buffer _ Hshort). exact Hp.
  - intros W libssh fuel device command w cs.
    destruct (libssh _ (ssh_channel_new (session device)) (lib w))
      as [channel l1] eqn:H1.
    destruct (libssh _ (ssh_channel_open_session channel) l1) as [rc1 l2] eqn:H2.
    destruct (libssh _ (ssh_channel_request_exec channel command) l2)
      as [rc2 l3] eqn:H3.
    intros Hd Hfuel Hfit.
    pose proof (ubnt_exec_command_delivers libssh fuel device command w channel
                  rc1 rc2 l1 l2 l3 cs H1 H2 H3 Hd Hfuel Hfit) as Hc.
    assert (channel ≠ None -> rc1 = SSH_OK -> rc2 = SSH_OK ->
            match rstrip (Some (overlays exec_buffer cs)) with
            | Val p =>
                exists w' new,
                  Device_h.ubnt_exec_command libssh fuel device command w
                  = Returns p w' /\
                  trace w' = trace w ++ new /\ chunks new = cs
            | UB =>
                exists w',
                  Device_h.ubnt_exec_command libssh fuel device command w
                  = Undefined w'
            end) as Hh.
    { intros Hchannel -> ->.
      exact (device_h_ubnt_exec_command_delivers libssh fuel device command w channel
               l1 l2 l3 cs H1 H2 H3 Hchannel Hd Hfuel Hfit). }
    destruct (rstrip (Some (overlays exec_buffer cs))) as [p|];
      (split; [exact Hc | exact Hh]).
Qed.


(** C1 on two chunks: [abcdef], then [xy].  The transport delivers them
    and ends the loop, so the call returns; the tail [cdef] of the first
    chunk stays behind the second. *)
Lemma exec_command_overlays_chunks_witness :
  exists p w',
    ubnt_exec_command (scripted amenable) 3 device0 (lit "mca-status")
      (start (Remote [lit "abcdef"; lit "xy"] [] []))
    = Returns p w' /\
    chunks (trace w') = [lit "abcdef"] ++ [lit "xy"] /\
    rstrip (Some (map Some (lit "xy")
                  ++ drop 2 (overlays exec_buffer [lit "abcdef"]))) = Val p /\
    string_of p = Val (Some (lit "xycdef")).
Proof.
  assert (delivers (scripted amenable) (Some 7%nat) [lit "abcdef"; lit "xy"]
            (Remote [lit "abcdef"; lit "xy"] [] [])) as Hd.
  { vm_compute. repeat split; try (intros Hne; discriminate Hne).
    right. left. intros Hne. discriminate Hne. }
  assert (forall c, c ∈ [lit "abcdef"; lit "xy"] -> (length c <= length exec_buffer)%nat)
    as Hfit.
  { intros c Hc. pose proof exec_buffer_length_nat as Hlen.
    apply elem_of_cons in Hc as [->|Hc]; [cbn [length lit list_ascii_of_string]; lia|].
    apply elem_of_cons in Hc as [->|Hc]; [cbn [length lit list_ascii_of_string]; lia|].
    now apply elem_of_nil in Hc. }
  pose (w := start (Remote [lit "abcdef"; lit "xy"] [] [])).
  pose proof (proj2 exec_command_overlays_chunks remote (scripted amenable) 3%nat
                device0 (lit "mca-status") w [lit "abcdef"; lit "xy"] Hd
                ltac:(cbn [length]; lia) Hfit) as H.
  pose (r := ubnt_exec_command (scripted amenable) 3 device0 (lit "mca-status") w).
  assert (returned_string r = Some (Some (lit "xycdef"))) as E
    by (vm_compute; reflexivity).
  destruct (rstrip (Some (overlays exec_buffer [lit "abcdef"; lit "xy"]))) as [p|].
  - destruct H as [(w' & new & Hrun & Htrace & Hchunks) _].
    cbn [w start trace app] in Htrace. subst new.
    exists p, w'. split; [exact Hrun|]. split; [exact Hchunks|]. split.
    + exact (proj1 (proj1 exec_command_overlays_chunks _ _ _ _ _ _ w' p (trace w')
                      [lit "abcdef"] (lit "xy") (or_introl Hrun) eq_refl Hchunks)).
    + fold r in Hrun. rewrite Hrun in E. cbn [returned_string] in E.
      destruct (string_of p) as [s|]; [|discriminate E]. now injection E as ->.
  - exfalso. destruct H as [(w' & Hrun) _]. fold r in Hrun. rewrite Hrun in E.
    discriminate E.
Defined.


(** After the single chunk of one line feed the buffer holds white space
    only, and the call has no defined result. *)
Example exec_line_feed_only :
  match ubnt_exec_command (scripted amenable) 3 device0 (lit "mca-status")
          (start (Remote [[LF]] [] [])) with
  | Undefined w' => chunks (trace w') = [[LF]]
  | _ => False
  end.
Proof. vm_compute. reflexivity. Qed.

(** Three chunks, the last one the longest: the buffer holds it alone. *)
Example exec_three_chunks :
  let r := ubnt_exec_command (scripted amenable) 5 device0 (lit "mca-status")
             (start (Remote [lit "ab"; lit "cdef"; lit "ghijkl"] [] [])) in
  returned_string r = Some (Some (lit "ghijkl")) /\
  chunks_read r = [lit "ab"; lit "cdef"; lit "ghijkl"].
Proof. vm_compute. split; reflexivity. Qed.

Lemma returned_byte_inv {W : Type} (r : result W pointer) (p : pointer)
    (w' : world W) (i : nat) (c : ascii) :
  r = Returns p w' -> returned_byte r i = Some c ->
  exists b, p = Some b /\ b !! i = Some (Some c).
Proof.
  intros -> H. simpl in H. destruct p as [b|]; [|discriminate].
  exists b. split; [reflexivity|].
  destruct (b !! i) as [[c'|]|]; simpl in H; congruence.
Qed.

(** C1 as stated fails: after the chunks [abcdef] and [xy] the returned
    buffer holds [xycdef], and its byte 2 is neither zero nor a byte of the
    final chunk. *)
Lemma exec_command_not_only_final_chunk : ~ only_final_chunk.
Proof.
  intros H.
  pose (r := ubnt_exec_command (scripted amenable) 3 device0 (lit "mca-status")
               (start (Remote [lit "abcdef"; lit "xy"] [] []))).
  assert (returned_string r = Some (Some (lit "xycdef"))) as E
    by (vm_compute; reflexivity).
  assert (chunks_read r = [lit "abcdef"] ++ [lit "xy"]) as Ec
    by (vm_compute; reflexivity).
  assert (returned_byte r 2 = Some "c"%char) as Eb by (vm_compute; reflexivity).
  destruct (returned_string_inv _ _ E) as (p & w' & Hrun & _).
  destruct (returned_byte_inv _ _ _ _ _ Hrun Eb) as (b & Hp & Hb).
  rewrite Hrun in Ec. cbn [chunks_read] in Ec.
  destruct (H _ _ _ _ _ _ w' p (trace w') [lit "abcdef"] (lit "xy") Hrun eq_refl Ec)
    as (b' & Hp' & Hbytes); [discriminate|].
  rewrite Hp in Hp'. injection Hp' as <-.
  destruct (Hbytes 2%nat "c"%char Hb) as [Hnul|Hlast]; discriminate.
Qed.

(** ** ubnt_copy_config_to_buffer *)


Lemma store_bytes_length (data : list ascii) (b b' : block) (off : Z) :
  store_bytes b off data = Val b' -> length b' = length b.
Proof.
  revert b off. induction data as [|c data IH]; intros b off; cbn [store_bytes].
  - now intros [= <-].
  - destruct (store b off c) as [b1|] eqn:Hst; [|discriminate]. ub_simpl.
    intros H. apply IH in H. rewrite H. eauto using store_length.
Qed.



Lemma scp_read_loop_fuel {W : Type} (libssh : transport W) (n : nat) (scp : ssh_scp)
    (file_size num_reads : Z) (tmp : block) (rc i : Z) (w : world W) :
  num_reads - i - 1 <= Z.of_nat n ->
  scp_read_loop libssh n scp file_size num_reads tmp rc i w ≠ OutOfFuel.
Proof.
  revert tmp rc i w. induction n as [|n IH]; intros tmp rc i w Hn;
    cbn [scp_read_loop].
  - call_step. destruct r as [data r].
    unfold mbind at 1, M_bind at 1, lift at 1.
    destruct (store_bytes tmp _ data) as [tmp1|]; [|discriminate].
    call_step.
    destruct (Z.ltb_spec (i + 1) num_reads); [lia|].
    rewrite andb_false_r. discriminate.
  - call_step. destruct r as [data r].
    unfold mbind at 1, M_bind at 1, lift at 1.
    destruct (store_bytes tmp _ data) as [tmp1|]; [|discriminate].
    call_step.
    destruct (negb _ && _); [|discriminate].
    apply IH. lia.
Qed.

Lemma tmp_buffer_array_length (num_reads : Z) (tmp : block) :
  tmp_buffer_array num_reads = Val tmp ->
  0 < num_reads /\ Z.of_nat (length tmp) = num_reads * SCP_READ_SIZE.
Proof.
  unfold tmp_buffer_array. destruct (Z.gtb_spec num_reads 0); [|discriminate].
  intros [= <-]. rewrite repeat_length. unfold SCP_READ_SIZE. split; lia.
Qed.



(** ** The staging array of ubnt_copy_config_to_buffer *)














(** A file of two full chunks, without an end-of-file answer: three reads,
    where [ceil(4096 / 2048)] is 2. *)
Example copy_config_two_chunks :
  let r := ubnt_copy_config_to_buffer (scripted (offering 4096)) device0
             (Some (repeat None 4096))
             (start (Remote [] [SSH_SCP_REQUEST_NEWFILE; SSH_ERROR; SSH_ERROR; SSH_ERROR]
                       [repeat "a"%char 2048; repeat "b"%char 2048; []])) in
  codes Fscp_read (trace_of r) = [2048; 2048; 0] /\
  fst <$> returned r = Some 4096.
Proof. vm_compute. split; reflexivity. Qed.

(** A file of five bytes of which one read delivers three: five bytes are
    copied all the same, two of them never written. *)
Example copy_config_short_read :
  returned (ubnt_copy_config_to_buffer (scripted (offering 5)) device0
              (Some (repeat None 8))
              (start (Remote [] [SSH_SCP_REQUEST_NEWFILE; SSH_ERROR] [lit "hel"])))
  = Some (3, Some (map Some (lit "hel") ++ repeat None 5)).
Proof. vm_compute. reflexivity. Qed.

(** A file of 2050 bytes in two reads: the second chunk starts at offset
    2048 of the staging array, and so of the caller's buffer. *)
Example copy_config_second_row :
  match returned (ubnt_copy_config_to_buffer (scripted (offering 2050)) device0
                    (Some (repeat None 2050))
                    (start (Remote [] [SSH_SCP_REQUEST_NEWFILE; SSH_ERROR;
                                       SSH_SCP_REQUEST_EOF]
                              [repeat "a"%char 2048; lit "bc"]))) with
  | Some (rc, Some b) =>
      rc = 2050 /\ b !! 2047%nat = Some (Some "a"%char) /\
      b !! 2048%nat = Some (Some "b"%char) /\ b !! 2049%nat = Some (Some "c"%char)
  | _ => False
  end.
Proof. vm_compute. repeat split; reflexivity. Qed.

(** A file of 4096 bytes whose first read is answered by end-of-file: one
    read is made, where three would have been. *)
Example copy_config_eof_ends_reads :
  let r := ubnt_copy_config_to_buffer (scripted (offering 4096)) device0
             (Some (repeat None 4096))
             (start (Remote [] [SSH_SCP_REQUEST_NEWFILE; SSH_SCP_REQUEST_EOF]
                       [repeat "a"%char 2048; repeat "b"%char 2048; []])) in
  codes Fscp_read (trace_of r) = [2048] /\
  codes Fpull_request (trace_of r) = [SSH_SCP_REQUEST_NEWFILE; SSH_SCP_REQUEST_EOF] /\
  fst <$> returned r = Some 2048.
Proof. vm_compute. repeat split; reflexivity. Qed.

(** * Further properties *)

(** ** rstrip, wherever it is defined *)

Lemma cstring_inv (b : block) (s : list ascii) :
  cstring b = Val s -> exists rest, b = holding s rest /\ NUL ∉ s.
Proof.
  revert s. induction b as [|x b IH]; intros s; cbn [cstring]; [discriminate|].
  destruct x as [c|]; [|discriminate].
  destruct (Ascii.eqb_spec c NUL) as [->|Hc].
  - intros [= <-]. exists b. split; [reflexivity | apply not_elem_of_nil].
  - destruct (cstring b) as [t|]; ub_simpl; [|discriminate].
    intros [= <-]. destruct (IH t eq_refl) as (rest & -> & Ht).
    exists rest. split; [reflexivity|].
    apply not_elem_of_cons. split; [congruence | exact Ht].
Qed.

(** A string is white space only, or has a last character that is not. *)
Lemma trailing_space_split (s : list ascii) :
  forallb isspace s = true \/
  exists p c ws, s = p ++ c :: ws /\ isspace c = false /\ forallb isspace ws = true.
Proof.
  induction s as [|a s IH]; [now left|].
  destruct IH as [Hall | (p & c & ws & -> & Hc & Hws)].
  - destruct (isspace a) eqn:Ha.
    + left. simpl. now rewrite Ha.
    + right. exists [], a, s. auto.
  - right. exists (a :: p), c, ws. auto.
Qed.

Lemma rstrip_spaces_undefined (s : list ascii) (rest : block) :
  s ≠ [] -> forallb isspace s = true -> Z.of_nat (length s) < 2 ^ 31 ->
  rstrip (Some (holding s rest)) = UB.
Proof.
  intros Hne Hsp Hlen. unfold rstrip.
  rewrite strlen_holding by (apply spaces_no_nul; assumption). ub_simpl.
  rewrite to_int_small by lia.
  assert (0 < length s)%nat as Hpos by (destruct s; [congruence | simpl; lia]).
  destruct (Z.gtb_spec (Z.of_nat (length s)) 0); [|lia].
  rewrite Nat2Z.id.
  change (rstrip_scan (holding s rest) (length s))
    with (rstrip_scan (holding s rest) (0 + length s)).
  rewrite (rstrip_scan_spaces (holding s rest) 0 (length s)).
  - rewrite rstrip_scan_start. reflexivity.
  - intros j Hj. destruct (lookup_lt_is_Some_2 s j) as [c Hc]; [lia|].
    exists c. split; [now apply lookup_holding_string|].
    eapply forallb_lookup; eauto.
Qed.

Lemma last_snoc_char (p : list ascii) (c : ascii) : last (p ++ [c]) = Some c.
Proof. apply last_snoc. Qed.

(** Whenever [rstrip] has a defined result on a string, the result is in
    the same block, of the same size; it holds the string without a
    suffix of white space, and ends in a character that is not white space
    or is empty; a second [rstrip] leaves it as it is. *)
Theorem rstrip_defined (b : block) (p : pointer) (s : list ascii) :
  rstrip (Some b) = Val p -> cstring b = Val s -> Z.of_nat (length s) < 2 ^ 31 ->
  exists b' s' ws,
    p = Some b' /\ length b' = length b /\
    cstring b' = Val s' /\ s = s' ++ ws /\ forallb isspace ws = true /\
    (forall c, last s' = Some c -> isspace c = false) /\
    rstrip (Some b') = Val (Some b').
Proof.
  intros Hrun Hs Hlen. apply cstring_inv in Hs as (rest & -> & Hnul).
  destruct (trailing_space_split s) as [Hall | (q & c & ws & -> & Hc & Hws)].
  - destruct s as [|a s].
    + rewrite rstrip_empty in Hrun. injection Hrun as <-.
      exists (holding [] rest), [], []. repeat split; try reflexivity.
      intros c [=].
    + rewrite rstrip_spaces_undefined in Hrun by (assumption || discriminate).
      discriminate.
  - assert ((NUL ∉ q) /\ c ≠ NUL) as [Hq Hcn].
    { rewrite not_elem_of_app, not_elem_of_cons in Hnul. split; [tauto|].
      intros ->. tauto. }
    rewrite rstrip_trims in Hrun by assumption. injection Hrun as <-.
    assert (NUL ∉ q ++ [c]) as Hqc.
    { rewrite not_elem_of_app, not_elem_of_cons. repeat split; auto.
      apply not_elem_of_nil. }
    exists (holding (q ++ [c]) (tail (holding ws rest))), (q ++ [c]), ws.
    split; [reflexivity|]. split.
    { rewrite !length_holding, !length_app. cbn [length].
      destruct ws; cbn [holding map app tail length]; [lia|].
      rewrite length_app, length_map. cbn [length]. lia. }
    split; [now apply cstring_holding|].
    split; [now rewrite <- app_assoc|]. split; [exact Hws|]. split.
    { intros c'. rewrite last_snoc_char. now intros [= <-]. }
    change (q ++ [c]) with (q ++ c :: []).
    rewrite rstrip_trims; try assumption; try reflexivity.
    rewrite length_app in *. cbn [length] in *. lia.
Qed.

(** [rstrip_defined] on [ab c] followed by two spaces. *)
Lemma rstrip_defined_witness :
  exists b',
    rstrip (Some (cstr (lit "ab c  "))) = Val (Some b') /\
    cstring b' = Val (lit "ab c").
Proof.
  destruct (rstrip (Some (cstr (lit "ab c  ")))) as [p|] eqn:Hrun;
    [|exfalso; vm_compute in Hrun; discriminate].
  assert (cstring (cstr (lit "ab c  ")) = Val (lit "ab c  ")) as Hs by reflexivity.
  assert (Z.of_nat (length (lit "ab c  ")) < 2 ^ 31) as Hlen by (vm_compute; reflexivity).
  destruct (rstrip_defined _ _ _ Hrun Hs Hlen)
    as (b' & s' & ws & -> & _ & Hs' & _).
  exists b'. split; [reflexivity|].
  vm_compute in Hrun. injection Hrun as <-. reflexivity.
Defined.

(** ** strip, wherever it is defined *)

Lemma load_inv (b : block) (i : Z) (c : ascii) :
  load b i = Val c -> 0 <= i /\ b !! Z.to_nat i = Some (Some c).
Proof.
  unfold load. destruct (Z.leb_spec 0 i); [|discriminate].
  destruct (b !! Z.to_nat i) as [[c'|]|]; try discriminate.
  intros [= <-]. split; [assumption | reflexivity].
Qed.

(** A loop that ends has read written bytes only. *)
Lemma strip_loop_reads (str : block) (n i : nat) (out : block) (j : Z)
    (r : block * Z) :
  strip_loop str n (Z.of_nat i) out j = Val r ->
  forall k, (k < n)%nat -> exists c, str !! (i + k)%nat = Some (Some c).
Proof.
  revert i out j. induction n as [|n IH]; intros i out j Hrun k Hk; [lia|].
  cbn [strip_loop] in Hrun.
  destruct (load str (Z.of_nat i)) as [c|] eqn:Hload; ub_simpl in Hrun;
    [|discriminate].
  apply load_inv in Hload as [_ Hc]. rewrite Nat2Z.id in Hc.
  replace (Z.of_nat i + 1) with (Z.of_nat (S i)) in Hrun by lia.
  destruct k as [|k]; [rewrite Nat.add_0_r; eauto|].
  replace (i + S k)%nat with (S i + k)%nat by lia.
  destruct (strip_keeps c).
  - destruct (store out j c) as [out1|]; ub_simpl in Hrun; [|discriminate].
    eapply IH; [exact Hrun | lia].
  - eapply IH; [exact Hrun | lia].
Qed.

(** Cells that are all written are the image of a string. *)
Lemma written_cells (cells : block) :
  (forall k, (k < length cells)%nat -> exists c, cells !! k = Some (Some c)) ->
  exists t, cells = map Some t.
Proof.
  induction cells as [|x cells IH]; intros H; [now exists []|].
  destruct (H 0%nat) as [c Hc]; [simpl; lia|]. injection Hc as ->.
  destruct IH as [t ->].
  { intros k Hk. apply (H (S k)). simpl. lia. }
  now exists (c :: t).
Qed.

Lemma keeps_all_written (t : list ascii) :
  keeps_all (map Some t) = forallb strip_keeps t.
Proof. unfold keeps_all. induction t as [|c t IH]; simpl; [|rewrite IH]; reflexivity. Qed.

Lemma filter_no_dropped (s : list ascii) (c : ascii) :
  c ∈ List.filter strip_keeps s -> c ≠ LF /\ c ≠ TAB /\ c ≠ CR.
Proof.
  intros Hin. apply list_elem_of_In, List.filter_In in Hin as [_ Hk].
  unfold strip_keeps in Hk.
  repeat split; intros ->; discriminate.
Qed.

(** Whenever [strip] has a defined result on a string, the result is a
    new string: the characters of the input that are no line feed, tab or
    carriage return, in their order. *)
Theorem strip_defined (b : block) (p : pointer) (s : list ascii) :
  strip (Some b) = Val p -> cstring b = Val s ->
  Z.of_nat (length s) + 100 < 2 ^ 31 ->
  string_of p = Val (Some (List.filter strip_keeps s)) /\
  forall c, c ∈ List.filter strip_keeps s -> c ≠ LF /\ c ≠ TAB /\ c ≠ CR.
Proof.
  intros Hrun Hs Hlen. split; [|apply filter_no_dropped].
  apply cstring_inv in Hs as (rest & -> & Hnul).
  assert (exists t rest', rest = map Some t ++ rest' /\ length t = 99%nat)
    as (t & rest' & -> & Ht).
  { unfold strip in Hrun. rewrite strlen_holding in Hrun by assumption.
    ub_simpl in Hrun. rewrite to_int_small in Hrun by lia.
    unfold malloc in Hrun.
    destruct (Z.ltb_spec (Z.of_nat (length s) + 100) 0); [lia|].
    destruct (strip_loop _ _ _ _ _) as [r|] eqn:Hloop; [|discriminate].
    change 0 with (Z.of_nat 0) in Hloop at 1.
    pose proof (strip_loop_reads _ _ _ _ _ _ Hloop) as Hread.
    assert (forall k, (k < 99)%nat -> exists c, rest !! k = Some (Some c)) as Hrest.
    { intros k Hk. destruct (Hread (length s + 1 + k)%nat) as [c Hc]; [lia|].
      exists c. unfold holding in Hc. cbn [Nat.add] in Hc.
      rewrite lookup_app_r in Hc by (rewrite length_map; lia).
      rewrite length_map in Hc.
      replace (length s + 1 + k - length s)%nat with (S k) in Hc by lia.
      exact Hc. }
    assert (99 <= length rest)%nat as Hlong.
    { destruct (Hrest 98%nat) as [c Hc]; [lia|].
      apply lookup_lt_Some in Hc. lia. }
    destruct (written_cells (take 99 rest)) as [t Ht].
    { intros k Hk. rewrite length_take in Hk.
      rewrite lookup_take_lt by lia. apply Hrest. lia. }
    exists t, (drop 99 rest). split.
    - rewrite <- Ht. now rewrite take_drop.
    - apply (f_equal length) in Ht. rewrite length_take, length_map in Ht. lia. }
  destruct (keeps_all (map Some (s ++ NUL :: t))) eqn:Hkeep.
  - exfalso. unfold strip in Hrun. rewrite strlen_holding in Hrun by assumption.
    ub_simpl in Hrun. rewrite to_int_small in Hrun by lia.
    unfold malloc in Hrun.
    destruct (Z.ltb_spec (Z.of_nat (length s) + 100) 0); [lia|].
    replace (Z.to_nat (Z.of_nat (length s) + 100)) with (length s + 100)%nat
      in Hrun by lia.
    destruct (strip_loop_keeps_all (holding s (map Some t ++ rest')) (length s + 100) 0
                (repeat None (length s + 100))) as [Hub | (out' & Hval & Hout)].
    + intros k c Hk Hc. apply (keeps_all_lookup _ k c Hkeep).
      unfold holding in Hc.
      replace (map Some s ++ Some NUL :: map Some t ++ rest')
        with (map Some (s ++ NUL :: t) ++ rest') in Hc
        by (rewrite map_app, <- app_assoc; reflexivity).
      destruct (decide (k < length (s ++ NUL :: t))%nat) as [Hlt|Hge].
      * rewrite lookup_app_l in Hc by (rewrite length_map; exact Hlt). exact Hc.
      * exfalso. rewrite length_app in Hge. cbn [length] in Hge. lia.
    + change (Z.of_nat 0) with 0 in Hub. rewrite Hub in Hrun. discriminate.
    + change (Z.of_nat 0) with 0 in Hval. rewrite Hval in Hrun. ub_simpl in Hrun.
      rewrite store_out_of_bounds in Hrun; [discriminate|].
      rewrite Hout, repeat_length. lia.
  - pose proof (strip_filters s t rest' Hnul Ht Hlen Hkeep) as Hgood.
    rewrite Hrun in Hgood. exact Hgood.
Qed.

(** [strip_defined] on [a], a line feed and [bc], with room behind. *)
Lemma strip_defined_witness :
  exists p,
    strip (Some (cstr_in (lit "a" ++ [LF] ++ lit "bc") 400)) = Val p /\
    string_of p = Val (Some (lit "abc")).
Proof.
  destruct (strip (Some (cstr_in (lit "a" ++ [LF] ++ lit "bc") 400))) as [p|] eqn:Hrun;
    [|exfalso; vm_compute in Hrun; discriminate].
  exists p. split; [reflexivity|].
  assert (cstring (cstr_in (lit "a" ++ [LF] ++ lit "bc") 400)
          = Val (lit "a" ++ [LF] ++ lit "bc")) as Hs by reflexivity.
  assert (Z.of_nat (length (lit "a" ++ [LF] ++ lit "bc")) + 100 < 2 ^ 31) as Hlen
    by (vm_compute; reflexivity).
  exact (proj1 (strip_defined _ _ _ Hrun Hs Hlen)).
Defined.

(** ** ubnt_connect_password *)

(** Password authentication is attempted only after [ssh_connect] returned
    [SSH_OK]; otherwise the code of the connect is the result and nothing
    else is called.  After a successful connect the result is the code of
    [ssh_userauth_password]. *)
Theorem ubnt_connect_password_gated (W : Type) (libssh : transport W)
    (device : UBNTDevice) (password : list ascii) (w : world W) :
  exists rc w' new connect_rc,
    ubnt_connect_password libssh device password w = Returns rc w' /\
    trace w' = trace w ++ new /\
    codes Fconnect new = [connect_rc] /\
    if connect_rc =? SSH_OK
    then names new = [Fconnect; Fuserauth_password] /\
         codes Fuserauth_password new = [rc]
    else names new = [Fconnect] /\ rc = connect_rc.
Proof.
  unfold ubnt_connect_password. call_step. rename r into connect_rc.
  destruct (connect_rc =? SSH_OK) eqn:Hrc.
  - unfold invoke. cbn [lib trace].
    destruct (libssh Z _ l) as [rc l'].
    eexists _, _, _, connect_rc. split; [reflexivity|]. trace_simpl.
    split; [reflexivity|]. split; [reflexivity|]. rewrite Hrc.
    split; reflexivity.
  - eexists _, _, _, connect_rc. split; [reflexivity|].
    split; [reflexivity|]. split; [reflexivity|]. rewrite Hrc.
    split; reflexivity.
Qed.

(** ** ubnt_exec_command without data *)

Lemma overlays_nil (b : block) : overlays b [] = b.
Proof. reflexivity. Qed.

Lemma string_of_empty (rest : block) :
  string_of (Some (holding [] rest)) = Val (Some []).
Proof. reflexivity. Qed.

Lemma exec_buffer_empty :
  exists rest, exec_buffer = holding [] rest.
Proof.
  unfold exec_buffer.
  replace (Z.to_nat (buffer_size * Z.of_nat (nat_of_ascii "0")))
    with (S (Z.to_nat (buffer_size * Z.of_nat (nat_of_ascii "0") - 1))).
  - eexists. reflexivity.
  - assert (0 < buffer_size * Z.of_nat (nat_of_ascii "0")) by reflexivity. lia.
Qed.

(** [ubnt_exec_command] of ubnt.c on a transport that ends the read loop
    at once (the channel is closed or at end-of-file, or the first poll
    reports no byte): the call returns the zeroed buffer, an empty string
    and not a null pointer, whatever the channel and the two requests
    gave. *)
Theorem ubnt_exec_command_no_data (W : Type) (libssh : transport W) (fuel : nat)
    (device : UBNTDevice) (command : list ascii) (w : world W) :
  let (channel, l1) := libssh _ (ssh_channel_new (session device)) (lib w) in
  let (rc1, l2) := libssh _ (ssh_channel_open_session channel) l1 in
  let (rc2, l3) := libssh _ (ssh_channel_request_exec channel command) l2 in
  delivers libssh channel [] l3 -> (0 < fuel)%nat ->
  exists w',
    ubnt_exec_command libssh fuel device command w = Returns (Some exec_buffer) w' /\
    chunks (trace w') = chunks (trace w) /\
    string_of (Some exec_buffer) = Val (Some []).
Proof.
  destruct (libssh _ (ssh_channel_new (session device)) (lib w))
    as [channel l1] eqn:H1.
  destruct (libssh _ (ssh_channel_open_session channel) l1) as [rc1 l2] eqn:H2.
  destruct (libssh _ (ssh_channel_request_exec channel command) l2)
    as [rc2 l3] eqn:H3.
  intros Hd Hfuel.
  pose proof (ubnt_exec_command_delivers libssh fuel device command w channel
                rc1 rc2 l1 l2 l3 [] H1 H2 H3 Hd Hfuel) as H.
  rewrite overlays_nil in H.
  destruct exec_buffer_empty as [rest Hrest].
  assert (rstrip (Some exec_buffer) = Val (Some exec_buffer)) as Hr
    by (rewrite Hrest; apply rstrip_empty).
  rewrite Hr in H.
  destruct H as (w' & new & Hrun & Htrace & Hchunks).
  { intros c Hc. now apply elem_of_nil in Hc. }
  exists w'. split; [exact Hrun|]. split.
  - rewrite Htrace, chunks_app, Hchunks. apply app_nil_r.
  - rewrite Hrest. apply string_of_empty.
Qed.

(** [ubnt_exec_command_no_data] on a device that sends nothing. *)
Lemma ubnt_exec_command_no_data_witness :
  exists w',
    ubnt_exec_command (scripted amenable) 1 device0 (lit "cfgmtd -w -p /etc/") idle
    = Returns (Some exec_buffer) w'.
Proof.
  assert (delivers (scripted amenable) (Some 7%nat) [] (Remote [] [] [])) as Hd.
  { vm_compute. right. left. intros Hne. discriminate Hne. }
  destruct (ubnt_exec_command_no_data remote (scripted amenable) 1 device0
              (lit "cfgmtd -w -p /etc/") idle Hd ltac:(lia))
    as (w' & Hrun & _).
  exists w'. exact Hrun.
Defined.

(** ** ubnt_copy_config_to_buffer without a file *)

(** When [ssh_scp_init] fails, or the pull request offers no new file,
    nothing is read: the code of the failing step is returned, the caller's
    buffer is not touched, and the transfer is closed and freed. *)
Theorem copy_config_without_file (W : Type) (libssh : transport W)
    (device : UBNTDevice) (buffer : pointer) (w : world W) :
  let run := ubnt_copy_config_to_buffer libssh device buffer w in
  let (scp, l1) := libssh _ (ssh_scp_new (session device) SSH_SCP_READ CONFIG) (lib w) in
  let (rc1, l2) := libssh _ (ssh_scp_init scp) l1 in
  if rc1 =? CONNECTION_OK then
    let (rc2, l3) := libssh _ (ssh_scp_pull_request scp) l2 in
    if rc2 =? SSH_SCP_REQUEST_NEWFILE then True
    else exists w', run = Returns (rc2, buffer) w' /\
                    names (trace w')
                    = names (trace w)
                      ++ [Fscp_new; Fscp_init; Fpull_request; Fscp_close; Fscp_free]
  else exists w', run = Returns (rc1, buffer) w' /\
                  names (trace w')
                  = names (trace w) ++ [Fscp_new; Fscp_init; Fscp_close; Fscp_free].
Proof.
  unfold ubnt_copy_config_to_buffer. cbv zeta.
  rewrite bind_invoke.
  destruct (libssh _ (ssh_scp_new (session device) SSH_SCP_READ CONFIG) (lib w))
    as [scp l1].
  cbn [fst snd]. rewrite bind_invoke. cbn [lib trace].
  destruct (libssh _ (ssh_scp_init scp) l1) as [rc1 l2].
  cbn [fst snd]. destruct (rc1 =? CONNECTION_OK).
  2:{ rewrite bind_ret. do 2 call_step.
      eexists. split; [reflexivity|]. trace_simpl. now rewrite names_app. }
  rewrite bind_assoc, bind_invoke. cbn [lib trace].
  destruct (libssh _ (ssh_scp_pull_request scp) l2) as [rc2 l3].
  cbn [fst snd]. destruct (rc2 =? SSH_SCP_REQUEST_NEWFILE); [exact I|].
  rewrite bind_ret. do 2 call_step.
  eexists. split; [reflexivity|]. trace_simpl. now rewrite names_app.
Qed.

(** ** The read loop of ubnt_exec_command *)






(** ** mca_to_json: the whole pass *)

Lemma put1 {A : Type} (out : list ascii) (junk : block) (a : ascii) (j : Z)
    (k : block -> ub A) :
  j = Z.of_nat (length out) ->
  (b ← store (map Some out ++ junk) j a; k b)
  = if (1 <=? length junk)%nat
    then k (map Some (out ++ [a]) ++ drop 1 junk)
    else UB.
Proof.
  intros ->. destruct junk as [|x junk]; cbn [length Nat.leb drop].
  - rewrite store_out_of_bounds; [reflexivity|].
    rewrite length_app, length_map. simpl. lia.
  - rewrite <- (length_map Some out) at 1. rewrite store_middle. ub_simpl.
    rewrite map_app, <- app_assoc. reflexivity.
Qed.

Lemma leb_drop (n m : nat) (junk : block) :
  (n <=? length junk)%nat = true ->
  (m <=? length (drop n junk))%nat = (n + m <=? length junk)%nat.
Proof.
  intros H. apply Nat.leb_le in H. rewrite length_drop.
  destruct (Nat.leb_spec m (length junk - n)), (Nat.leb_spec (n + m) (length junk));
    try reflexivity; lia.
Qed.

Lemma put2 {A : Type} (out : list ascii) (junk : block) (a b : ascii) (j j1 : Z)
    (k : block -> ub A) :
  j = Z.of_nat (length out) -> j1 = j + 1 ->
  (b1 ← store (map Some out ++ junk) j a; b2 ← store b1 j1 b; k b2)
  = if (2 <=? length junk)%nat
    then k (map Some (out ++ [a; b]) ++ drop 2 junk)
    else UB.
Proof.
  intros Hj ->. rewrite (put1 out junk a j) by exact Hj.
  destruct (1 <=? length junk)%nat eqn:H1.
  - rewrite (put1 (out ++ [a])) by (rewrite length_app; simpl; lia).
    rewrite leb_drop by exact H1. cbn [Nat.add].
    rewrite <- app_assoc, drop_drop. reflexivity.
  - apply Nat.leb_gt in H1. destruct (Nat.leb_spec 2 (length junk)); [lia|reflexivity].
Qed.

Lemma put3 {A : Type} (out : list ascii) (junk : block) (a b c : ascii)
    (j j1 j2 : Z) (k : block -> ub A) :
  j = Z.of_nat (length out) -> j1 = j + 1 -> j2 = j + 2 ->
  (b1 ← store (map Some out ++ junk) j a; b2 ← store b1 j1 b;
   b3 ← store b2 j2 c; k b3)
  = if (3 <=? length junk)%nat
    then k (map Some (out ++ [a; b; c]) ++ drop 3 junk)
    else UB.
Proof.
  intros Hj -> ->. rewrite (put1 out junk a j) by exact Hj.
  destruct (1 <=? length junk)%nat eqn:H1.
  - rewrite (put2 (out ++ [a])) by (rewrite ?length_app; simpl; lia).
    rewrite leb_drop by exact H1. cbn [Nat.add].
    rewrite <- app_assoc, drop_drop. reflexivity.
  - apply Nat.leb_gt in H1. destruct (Nat.leb_spec 3 (length junk)); [lia|reflexivity].
Qed.

Lemma put4 {A : Type} (out : list ascii) (junk : block) (a b c d : ascii)
    (j j1 j2 j3 : Z) (k : block -> ub A) :
  j = Z.of_nat (length out) -> j1 = j + 1 -> j2 = j + 2 -> j3 = j + 3 ->
  (b1 ← store (map Some out ++ junk) j a; b2 ← store b1 j1 b;
   b3 ← store b2 j2 c; b4 ← store b3 j3 d; k b4)
  = if (4 <=? length junk)%nat
    then k (map Some (out ++ [a; b; c; d]) ++ drop 4 junk)
    else UB.
Proof.
  intros Hj -> -> ->. rewrite (put1 out junk a j) by exact Hj.
  destruct (1 <=? length junk)%nat eqn:H1.
  - rewrite (put3 (out ++ [a])) by (rewrite ?length_app; simpl; lia).
    rewrite leb_drop by exact H1. cbn [Nat.add].
    rewrite <- app_assoc, drop_drop. reflexivity.
  - apply Nat.leb_gt in H1. destruct (Nat.leb_spec 4 (length junk)); [lia|reflexivity].
Qed.

Lemma landed_nil (out : list ascii) (junk : block) :
  landed out junk [] = Val (map Some out ++ junk, Z.of_nat (length out)).
Proof.
  unfold landed. cbn [length Nat.leb drop]. rewrite app_nil_r, Nat.add_0_r.
  reflexivity.
Qed.

Lemma landed_app (out : list ascii) (junk : block) (e text : list ascii) :
  landed out junk (e ++ text)
  = if (length e <=? length junk)%nat
    then landed (out ++ e) (drop (length e) junk) text
    else UB.
Proof.
  unfold landed. rewrite !length_app.
  destruct (Nat.leb_spec (length e) (length junk)) as [He|He].
  - rewrite leb_drop by (now apply Nat.leb_le).
    destruct (length e + length text <=? length junk)%nat; [|reflexivity].
    rewrite <- app_assoc, drop_drop. do 3 f_equal. lia.
  - destruct (Nat.leb_spec (length e + length text) (length junk)); [lia|reflexivity].
Qed.

Ltac land1 :=
  match goal with
  | |- _ = landed ?out ?junk (?a :: ?t) =>
      change (landed out junk (a :: t)) with (landed out junk ([a] ++ t));
      rewrite (landed_app out junk [a] t)
  end.
Ltac land2 :=
  match goal with
  | |- _ = landed ?out ?junk (?a :: ?b :: ?t) =>
      change (landed out junk (a :: b :: t)) with (landed out junk ([a; b] ++ t));
      rewrite (landed_app out junk [a; b] t)
  end.
Ltac land3 :=
  match goal with
  | |- _ = landed ?out ?junk (?a :: ?b :: ?c :: ?t) =>
      change (landed out junk (a :: b :: c :: t))
        with (landed out junk ([a; b; c] ++ t));
      rewrite (landed_app out junk [a; b; c] t)
  end.

(** The loop of [mca_to_json] from index [i] on, the buffer holding [out]
    so far: it writes [mca_fields] of the rest of the string behind [out],
    or runs out of the buffer. *)
Lemma mca_loop_fields (s : list ascii) (rest : block) (fuel : nat) :
  forall (i : nat) (prev : ascii) (out : list ascii) (junk : block),
    (length s - i <= fuel)%nat ->
    ((i < length s)%nat ->
     match i with
     | O => head s ≠ Some CR
     | S i' => s !! i' = Some prev
     end) ->
    mca_loop fuel (holding s rest) (Z.of_nat (length s)) (map Some out ++ junk)
      (Z.of_nat i) (Z.of_nat (length out))
    = landed out junk (mca_fields prev (drop i s)).
Proof.
  induction fuel as [|fuel IH]; intros i prev out junk Hfuel Hprev.
  { rewrite drop_ge by lia. cbn [mca_loop mca_fields]. now rewrite landed_nil. }
  cbn [mca_loop]. destruct (Z.ltb_spec (Z.of_nat i) (Z.of_nat (length s))) as [Hi|Hi].
  2:{ rewrite drop_ge by lia. cbn [mca_fields]. now rewrite landed_nil. }
  assert (i < length s)%nat as Hi' by lia. specialize (Hprev Hi').
  destruct (lookup_lt_is_Some_2 s i Hi') as [c Hc].
  rewrite (drop_S s c i Hc). cbn [mca_fields].
  unfold mca_switch. rewrite (load_holding s rest i c Hc). ub_simpl.
  destruct (Ascii.eqb c "=") eqn:E1.
  { rewrite (put3 out junk) by (reflexivity || lia).
    land3. cbn [length]. destruct (3 <=? length junk)%nat; [|reflexivity].
    ub_simpl.
    replace (Z.of_nat i + 1) with (Z.of_nat (S i)) by lia.
    replace (Z.of_nat (length out) + 2 + 1)
      with (Z.of_nat (length (out ++ [DQ; ":"%char; DQ])))
      by (rewrite length_app; simpl; lia).
    apply IH; [lia|]. intros _. exact Hc. }
  destruct (Ascii.eqb c ",") eqn:E2.
  { rewrite (put3 out junk) by (reflexivity || lia).
    land3. cbn [length]. destruct (3 <=? length junk)%nat; [|reflexivity].
    ub_simpl.
    replace (Z.of_nat i + 1) with (Z.of_nat (S i)) by lia.
    replace (Z.of_nat (length out) + 2 + 1)
      with (Z.of_nat (length (out ++ [DQ; ","%char; DQ])))
      by (rewrite length_app; simpl; lia).
    apply IH; [lia|]. intros _. exact Hc. }
  destruct (Ascii.eqb c CR) eqn:E3.
  { apply Ascii.eqb_eq in E3. subst c.
    destruct i as [|i'].
    { exfalso. apply Hprev. destruct s as [|a s]; [discriminate|].
      injection Hc as ->. reflexivity. }
    replace (Z.of_nat (S i') - 1) with (Z.of_nat i') by lia.
    rewrite (load_holding s rest i' prev Hprev). ub_simpl.
    destruct (Ascii.eqb prev LF).
    - ub_simpl.
      replace (Z.of_nat (S i') + 1 + 1) with (Z.of_nat (S (S (S i')))) by lia.
      replace (Z.of_nat (length out) - 1 + 1) with (Z.of_nat (length out)) by lia.
      destruct (drop (S (S i')) s) as [|c' s''] eqn:Hd.
      + apply (f_equal length) in Hd. rewrite length_drop in Hd. simpl in Hd.
        transitivity (landed out junk (mca_fields NUL (drop (S (S (S i'))) s))).
        * apply IH; [lia|]. intros Hlt. lia.
        * rewrite drop_ge by lia. reflexivity.
      + assert (s !! S (S i') = Some c') as Hc'.
        { rewrite <- (Nat.add_0_r (S (S i'))), <- lookup_drop, Hd. reflexivity. }
        assert (drop (S (S (S i'))) s = s'') as Hd'.
        { rewrite (drop_S s c' (S (S i')) Hc') in Hd. congruence. }
        rewrite <- Hd'. apply IH; [lia|]. intros _. exact Hc'.
    - rewrite (put1 out junk) by reflexivity.
      land1. cbn [length]. destruct (1 <=? length junk)%nat; [|reflexivity].
      ub_simpl.
      replace (Z.of_nat (S i') + 1) with (Z.of_nat (S (S i'))) by lia.
      replace (Z.of_nat (length out) + 1)
        with (Z.of_nat (length (out ++ [DQ])))
        by (rewrite length_app; simpl; lia).
      apply IH; [lia|]. intros _. exact Hc. }
  destruct (Ascii.eqb c LF) eqn:E4.
  { rewrite (put2 out junk) by (reflexivity || lia).
    land2. cbn [length]. destruct (2 <=? length junk)%nat; [|reflexivity].
    ub_simpl.
    replace (Z.of_nat i + 1) with (Z.of_nat (S i)) by lia.
    replace (Z.of_nat (length out) + 1 + 1)
      with (Z.of_nat (length (out ++ [","%char; DQ])))
      by (rewrite length_app; simpl; lia).
    apply IH; [lia|]. intros _. exact Hc. }
  rewrite (put1 out junk) by reflexivity.
  land1. cbn [length]. destruct (1 <=? length junk)%nat; [|reflexivity].
      ub_simpl.
  replace (Z.of_nat i + 1) with (Z.of_nat (S i)) by lia.
  replace (Z.of_nat (length out) + 1)
    with (Z.of_nat (length (out ++ [c])))
    by (rewrite length_app; simpl; lia).
  apply IH; [lia|]. intros _. exact Hc.
Qed.

Lemma put1_last (out : list ascii) (junk : block) (a : ascii) (j : Z) :
  j = Z.of_nat (length out) ->
  store (map Some out ++ junk) j a
  = if (1 <=? length junk)%nat
    then Val (map Some (out ++ [a]) ++ drop 1 junk)
    else UB.
Proof.
  intros Hj. rewrite <- (put1 out junk a j Val Hj).
  destruct (store _ _ _); reflexivity.
Qed.

Lemma find_first_bound (s : list ascii) (k : nat) :
  find_first (lit ", ") s = Some k -> (k + 2 <= length s)%nat.
Proof.
  intros H. apply find_first_spec in H as [Hocc _].
  apply occurs_at_bound in Hocc; simpl in *; lia.
Qed.

Lemma mca_prepass_dashes (s : list ascii) (rest : block) :
  NUL ∉ s -> mca_prepass (holding s rest) = Val (holding (mca_dashes s) rest).
Proof.
  intros Hnul. unfold mca_dashes.
  destruct (find_first (lit ", ") s) as [k|] eqn:Hf.
  - apply mca_prepass_first_occurrence; [exact Hnul|].
    now apply find_first_spec.
  - unfold mca_prepass, strstr. rewrite cstring_holding by assumption. ub_simpl.
    rewrite Hf. reflexivity.
Qed.

Lemma mca_dashes_length (s : list ascii) : length (mca_dashes s) = length s.
Proof.
  unfold mca_dashes. destruct (find_first _ s) as [k|] eqn:Hf; [|reflexivity].
  apply find_first_bound in Hf.
  rewrite !length_app, length_take, length_drop. simpl. lia.
Qed.

Lemma mca_dashes_elem (s : list ascii) (x : ascii) :
  x ∈ mca_dashes s -> x ∈ s \/ x = "-"%char.
Proof.
  unfold mca_dashes. destruct (find_first _ s) as [k|]; [|now left].
  rewrite !elem_of_app. intros [H|[H|H]].
  - left. eapply subseteq_take, H.
  - right. change (lit "--") with ["-"%char; "-"%char] in H.
    apply elem_of_cons in H as [->|H]; [reflexivity|].
    apply elem_of_cons in H as [->|H]; [reflexivity|].
    now apply elem_of_nil in H.
  - left. eapply subseteq_drop, H.
Qed.

Lemma mca_dashes_no_nul (s : list ascii) : NUL ∉ s -> NUL ∉ mca_dashes s.
Proof. intros Hnul H. apply mca_dashes_elem in H as [H|H]; [auto | discriminate]. Qed.

Lemma starts_with_cr_dashes (s : list ascii) :
  starts_with_cr (mca_dashes s) = starts_with_cr s.
Proof.
  unfold mca_dashes. destruct (find_first _ s) as [k|] eqn:Hf; [|reflexivity].
  destruct k as [|k].
  - apply find_first_spec in Hf as [Hocc _]. unfold occurs_at in Hocc.
    rewrite drop_0 in Hocc. destruct s as [|c s]; [discriminate|].
    injection Hocc as -> _. reflexivity.
  - destruct s as [|c s]; [apply find_first_bound in Hf; simpl in Hf; lia|].
    reflexivity.
Qed.

Lemma starts_with_cr_head (s : list ascii) :
  starts_with_cr s = false -> head s ≠ Some CR.
Proof.
  destruct s as [|c s]; [discriminate|]. simpl. intros H [= ->]. discriminate.
Qed.

(** The pass emits its own punctuation and characters of the input. *)
Lemma mca_fields_elem (n : nat) :
  forall (s : list ascii) (prev x : ascii),
    (length s <= n)%nat -> x ∈ mca_fields prev s ->
    x ∈ s \/ x = DQ \/ x = ":"%char \/ x = ","%char.
Proof.
  induction n as [|n IH]; intros s prev x Hn.
  { destruct s; [|simpl in Hn; lia]. intros H. now apply elem_of_nil in H. }
  destruct s as [|c s]; [intros H; now apply elem_of_nil in H|].
  simpl in Hn. cbn [mca_fields].
  assert (forall p, x ∈ mca_fields p s ->
                    x ∈ c :: s \/ x = DQ \/ x = ":"%char \/ x = ","%char) as Htail.
  { intros p H. apply IH in H as [H|H]; [left; now right | now right | lia]. }
  repeat match goal with
         | |- x ∈ (if ?b then _ else _) -> _ => destruct b
         | |- x ∈ _ :: _ -> _ =>
             let H := fresh in
             intros H; apply elem_of_cons in H as [->|H]; [|revert H]
         end;
    try (now (right; left)); try (now (right; right; left));
    try (now (right; right; right)); try (left; now left); try apply Htail.
  destruct s as [|c' s'']; [intros H; now apply elem_of_nil in H|].
  intros H. apply IH in H as [H|H]; [|now right|simpl in *; lia].
  left. right. now right.
Qed.

Lemma mca_fields_no_nul (s : list ascii) (prev : ascii) :
  NUL ∉ s -> NUL ∉ mca_fields prev s.
Proof.
  intros Hnul H. apply (mca_fields_elem (length s)) in H as [H|[H|[H|H]]];
    [auto | discriminate.. | lia].
Qed.

(** A character becomes at most three. *)
Lemma mca_fields_length_le (n : nat) :
  forall (s : list ascii) (prev : ascii),
    (length s <= n)%nat -> (length (mca_fields prev s) <= 3 * length s)%nat.
Proof.
  induction n as [|n IH]; intros s prev Hn.
  { destruct s; [simpl; lia | simpl in Hn; lia]. }
  destruct s as [|c s]; [simpl; lia|]. simpl in Hn. cbn [mca_fields].
  assert (forall p, length (mca_fields p s) <= 3 * length s)%nat as Htail
    by (intros p; apply IH; lia).
  repeat match goal with
         | |- context [if ?b then _ else _] => destruct b
         end; cbn [length]; try (specialize (Htail c); lia).
  destruct s as [|c' s'']; [simpl; lia|].
  specialize (IH s'' c'). simpl in *. lia.
Qed.

(** Without carriage returns every character becomes at least one. *)
Lemma mca_fields_length_ge (s : list ascii) (prev : ascii) :
  CR ∉ s -> (length s <= length (mca_fields prev s))%nat.
Proof.
  revert prev. induction s as [|c s IH]; intros prev Hcr; [simpl; lia|].
  apply not_elem_of_cons in Hcr as [Hc Hs]. cbn [mca_fields].
  destruct (Ascii.eqb_spec c CR) as [->|_]; [congruence|].
  specialize (IH c Hs).
  repeat match goal with
         | |- context [if ?b then _ else _] => destruct b
         end; cbn [length]; lia.
Qed.

Lemma repeat_indeterminate_length :
  length (repeat (@None ascii) (Z.to_nat mca_parsed_size)) = 2048%nat.
Proof. rewrite repeat_length. reflexivity. Qed.

(** What [mca_emit] leaves in a fresh block. *)
Lemma mca_emit_fields (s : list ascii) (rest : block) :
  starts_with_cr s = false ->
  let text := mca_fields NUL s in
  let doc := lit "[{" ++ [DQ] ++ text ++ [DQ] ++ lit "}]" in
  mca_emit (holding s rest) (Z.of_nat (length s))
    (repeat None (Z.to_nat mca_parsed_size))
  = if Z.of_nat (length text) + 7 <=? mca_parsed_size
    then Val (holding doc (drop (length doc + 1)
                             (repeat None (Z.to_nat mca_parsed_size))))
    else UB.
Proof.
  intros Hcr text doc. unfold mca_emit.
  pose proof repeat_indeterminate_length as Hlen.
  set (junk := repeat None (Z.to_nat mca_parsed_size)) in *.
  change (store junk 0) with (store (map Some (@nil ascii) ++ junk) 0).
  rewrite (put3 [] junk) by reflexivity.
  rewrite Hlen. cbn [Nat.leb app].
  rewrite Nat2Z.id.
  change 3 with (Z.of_nat (length ["["%char; "{"%char; DQ])).
  rewrite (mca_loop_fields s rest (length s) 0 NUL) by
    (try lia; intros _; now apply starts_with_cr_head).
  rewrite drop_0. fold text. unfold landed.
  rewrite length_drop, Hlen. cbn [length].
  destruct (Nat.leb_spec (length text) (2048 - 3)) as [Hfit|Hfit].
  2:{ ub_simpl. destruct (Z.leb_spec (Z.of_nat (length text) + 7) mca_parsed_size) as [H|H];
        [unfold mca_parsed_size in H; lia | reflexivity]. }
  ub_simpl.
  rewrite (put3 _ _ _ _ _ _ _ _ (fun b => store b _ NUL))
    by (rewrite ?length_app; simpl; lia).
  rewrite !length_drop, Hlen.
  destruct (Nat.leb_spec 3 (2048 - 3 - length text)) as [Hfit3|Hfit3].
  2:{ destruct (Z.leb_spec (Z.of_nat (length text) + 7) mca_parsed_size) as [H|H];
        [unfold mca_parsed_size in H; lia | reflexivity]. }
  rewrite put1_last by (rewrite ?length_app; simpl; lia).
  rewrite !length_drop, Hlen.
  destruct (Nat.leb_spec 1 (2048 - 3 - length text - 3)) as [Hfit4|Hfit4];
    destruct (Z.leb_spec (Z.of_nat (length text) + 7) mca_parsed_size) as [H|H];
    unfold mca_parsed_size in H; try lia; [|reflexivity].
  f_equal. unfold holding, doc. rewrite !drop_drop.
  rewrite !map_app, <- !app_assoc. cbn [map app lit list_ascii_of_string].
  do 3 f_equal. f_equal. do 4 f_equal. f_equal.
  cbn [length]. rewrite length_app. simpl. lia.
Qed.

(** [mca_to_json] on a string held in a block, whatever lies behind it:
    the input block after the substitution and the block of the document,
    or no defined result. *)
Lemma mca_to_json_holding (s : list ascii) (rest : block) :
  NUL ∉ s -> Z.of_nat (length s) < 2 ^ 31 ->
  mca_to_json (Some (holding s rest))
  = match mca_json s with
    | Some doc =>
        Val (holding (mca_dashes s) rest,
             Some (holding doc (drop (length doc + 1)
                                  (repeat None (Z.to_nat mca_parsed_size)))))
    | None => UB
    end.
Proof.
  intros Hnul Hlen. unfold mca_to_json, mca_json.
  rewrite strlen_holding by assumption. ub_simpl.
  rewrite to_int_small by lia.
  change (malloc mca_parsed_size)
    with (Some (repeat (@None ascii) (Z.to_nat mca_parsed_size))).
  rewrite mca_prepass_dashes by assumption. ub_simpl.
  rewrite <- (mca_dashes_length s).
  destruct (starts_with_cr s) eqn:Hcr.
  - rewrite <- starts_with_cr_dashes in Hcr.
    destruct (mca_dashes s) as [|c s'] eqn:Hs'; [discriminate|].
    simpl in Hcr. apply Ascii.eqb_eq in Hcr. subst c.
    unfold mca_emit.
    destruct (store _ 0 _) as [b0|]; [|reflexivity]. ub_simpl.
    destruct (store b0 1 _) as [b1|]; [|reflexivity]. ub_simpl.
    destruct (store b1 2 _) as [b2|]; [|reflexivity]. ub_simpl.
    rewrite Nat2Z.id. cbn [length mca_loop].
    destruct (Z.ltb_spec 0 (Z.of_nat (S (length s')))); [|lia].
    rewrite mca_switch_leading_cr by reflexivity. reflexivity.
  - rewrite mca_emit_fields by (now rewrite starts_with_cr_dashes).
    destruct (_ <=? _); reflexivity.
Qed.

(** What [mca_to_json] does, for every input.  On a string of fewer than
    2^31 characters, held in a block with whatever behind it, the call
    turns the first comma followed by a space of the input into two dashes
    and returns a fresh block of [mca_parsed_size] bytes holding the
    document [mca_json] describes; it has no defined result when the input
    starts with a carriage return, or when the document and its terminator
    need more than the [mca_parsed_size] bytes of the block, which the code
    never checks. *)
Theorem mca_to_json_document (s : list ascii) (rest : block) :
  NUL ∉ s -> Z.of_nat (length s) < 2 ^ 31 ->
  match mca_json s with
  | Some doc =>
      exists buffer,
        mca_to_json (Some (holding s rest))
        = Val (holding (mca_dashes s) rest, Some buffer) /\
        cstring buffer = Val doc /\
        Z.of_nat (length buffer) = mca_parsed_size
  | None => mca_to_json (Some (holding s rest)) = UB
  end.
Proof.
  intros Hnul Hlen. rewrite mca_to_json_holding by assumption.
  unfold mca_json.
  destruct (starts_with_cr s); [reflexivity|]. cbv zeta.
  destruct (Z.leb_spec (Z.of_nat (length (mca_fields NUL (mca_dashes s))) + 7)
              mca_parsed_size) as [Hfit|Hfit]; [|reflexivity].
  set (text := mca_fields NUL (mca_dashes s)) in *.
  eexists. split; [reflexivity|]. split.
  - apply cstring_holding.
    assert (NUL ∉ text) as Htext
      by (apply mca_fields_no_nul; now apply mca_dashes_no_nul).
    rewrite !not_elem_of_app. repeat split; try exact Htext;
      apply no_nul_check; reflexivity.
  - rewrite length_holding, length_drop, repeat_indeterminate_length.
    rewrite !length_app. fold text. cbn [length lit list_ascii_of_string].
    unfold mca_parsed_size in *. lia.
Qed.

(** [mca_to_json_document] on the two lines [a=1, 2] and [b=3]. *)
Lemma mca_to_json_document_witness :
  exists buffer,
    mca_to_json (Some (cstr comma_value))
    = Val (cstr (lit "a=1--2" ++ [LF] ++ lit "b=3" ++ [LF]), Some buffer) /\
    cstring buffer
    = Val (lit "[{" ++ quoted "a" ++ lit ":" ++ [DQ] ++ lit "1--2" ++ lit ","
           ++ quoted "b" ++ lit ":" ++ [DQ] ++ lit "3" ++ lit "," ++ [DQ]
           ++ [DQ] ++ lit "}]").
Proof.
  assert (NUL ∉ comma_value) as Hnul by (apply no_nul_check; reflexivity).
  assert (Z.of_nat (length comma_value) < 2 ^ 31) as Hlen by (vm_compute; reflexivity).
  pose proof (mca_to_json_document comma_value [] Hnul Hlen) as H.
  destruct H as (buffer & Hrun & Hdoc & _).
  exists buffer. split; [exact Hrun | exact Hdoc].
Defined.

(** An input of at most 680 characters that does not start with a carriage
    return always fits: each character becomes at most three, and
    3 * 680 + 7 <= 2048. *)
Theorem mca_to_json_short_input_fits (s : list ascii) (rest : block) :
  NUL ∉ s -> starts_with_cr s = false -> (length s <= 680)%nat ->
  exists doc buffer,
    mca_json s = Some doc /\
    mca_to_json (Some (holding s rest))
    = Val (holding (mca_dashes s) rest, Some buffer) /\
    cstring buffer = Val doc.
Proof.
  intros Hnul Hcr Hshort.
  assert (Z.of_nat (length s) < 2 ^ 31) as Hlen by lia.
  rewrite mca_to_json_holding by assumption.
  unfold mca_json. rewrite Hcr. cbv zeta.
  pose proof (mca_fields_length_le (length (mca_dashes s)) (mca_dashes s) NUL
                (Nat.le_refl _)) as Hle.
  rewrite mca_dashes_length in Hle.
  destruct (Z.leb_spec (Z.of_nat (length (mca_fields NUL (mca_dashes s))) + 7)
              mca_parsed_size) as [Hfit|Hfit]; [|unfold mca_parsed_size in Hfit; lia].
  eexists _, _. split; [reflexivity|]. split; [reflexivity|].
  apply cstring_holding.
  assert (NUL ∉ mca_fields NUL (mca_dashes s)) as Htext
    by (apply mca_fields_no_nul; now apply mca_dashes_no_nul).
  rewrite !not_elem_of_app. repeat split; try exact Htext;
    apply no_nul_check; reflexivity.
Qed.

(** [mca_to_json_short_input_fits] on the two lines of the example. *)
Lemma mca_to_json_short_input_fits_witness :
  exists doc buffer,
    mca_json two_lines = Some doc /\
    mca_to_json (Some (cstr two_lines))
    = Val (holding (mca_dashes two_lines) [], Some buffer) /\
    cstring buffer = Val doc.
Proof.
  apply (mca_to_json_short_input_fits two_lines []).
  - apply no_nul_check. reflexivity.
  - reflexivity.
  - vm_compute. lia.
Defined.

(** The bound is sharp: 681 equals signs need 2050 bytes. *)
Example mca_to_json_681_equals_signs :
  mca_to_json (Some (cstr (repeat "="%char 681))) = UB.
Proof. vm_compute. reflexivity. Qed.

Lemma not_in_repeat (c x : ascii) (n : nat) : x ≠ c -> x ∉ repeat c n.
Proof.
  intros Hne H. apply list_elem_of_In, repeat_spec in H. congruence.
Qed.

(** An input of 2042 or more characters without a carriage return
    overflows the block: each of its characters becomes at least one, and
    the seven characters around them and the terminator no longer fit;
    the code writes behind the 2048 bytes it allocated. *)
Theorem mca_to_json_long_input_undefined (s : list ascii) (rest : block) :
  NUL ∉ s -> CR ∉ s -> 2042 <= Z.of_nat (length s) < 2 ^ 31 ->
  mca_to_json (Some (holding s rest)) = UB.
Proof.
  intros Hnul Hcr [Hlong Hlen].
  rewrite mca_to_json_holding by assumption.
  unfold mca_json. destruct (starts_with_cr s); [reflexivity|]. cbv zeta.
  assert (CR ∉ mca_dashes s) as Hcr'.
  { intros H. apply mca_dashes_elem in H as [H|H]; [auto | discriminate]. }
  pose proof (mca_fields_length_ge (mca_dashes s) NUL Hcr') as Hge.
  rewrite mca_dashes_length in Hge.
  destruct (Z.leb_spec (Z.of_nat (length (mca_fields NUL (mca_dashes s))) + 7)
              mca_parsed_size) as [Hfit|Hfit]; [|reflexivity].
  unfold mca_parsed_size in Hfit. lia.
Qed.

(** [mca_to_json_long_input_undefined] on 2042 letters. *)
Lemma mca_to_json_long_input_undefined_witness :
  mca_to_json (Some (cstr (repeat "a"%char (Z.to_nat 2042)))) = UB.
Proof.
  apply mca_to_json_long_input_undefined.
  - apply not_in_repeat. discriminate.
  - apply not_in_repeat. discriminate.
  - rewrite repeat_length. lia.
Defined.

(** ** The commands of ubnt.c *)

Lemma exec_buffer_length : Z.of_nat (length exec_buffer) = 393216.
Proof.
  unfold exec_buffer. rewrite repeat_length, Z2Nat.id; [reflexivity|].
  discriminate.
Qed.

Lemma repeat_written (c : ascii) (n : nat) : Forall is_Some (repeat (Some c) n).
Proof.
  apply Forall_forall. intros x Hx.
  apply list_elem_of_In, repeat_spec in Hx. subst x. eauto.
Qed.

Lemma exec_buffer_written : Forall is_Some exec_buffer.
Proof. apply repeat_written. Qed.

Lemma overlay_written (b : block) (data : list ascii) :
  Forall is_Some b -> Forall is_Some (overlay b data).
Proof.
  intros H. unfold overlay. apply Forall_app. split.
  - apply Forall_fmap, Forall_true. intros c. simpl. eauto.
  - now apply Forall_drop.
Qed.

(** The read loop leaves a block of the size it was given, with every
    byte written if every byte was. *)
Lemma drain_block {W : Type} (libssh : transport W) (fuel : nat)
    (channel : ssh_channel) (b : block) (nbytes : Z) (w w' : world W)
    (r : pointer * Z) :
  drain libssh fuel channel (Some b) nbytes w = Returns r w' ->
  exists b', r.1 = Some b' /\ length b' = length b /\
             (Forall is_Some b -> Forall is_Some b').
Proof.
  revert b nbytes w. induction fuel as [|fuel IH]; intros b nbytes w;
    cbn [drain]; [discriminate|].
  call_step. rename r0 into is_open.
  destruct (is_open =? 0).
  { intros [= <- <-]. exists b. auto. }
  call_step. rename r0 into is_eof.
  destruct (negb (is_eof =? 0)).
  { intros [= <- <-]. exists b. auto. }
  call_step. rename r0 into pbytes.
  destruct (pbytes >? 0).
  2:{ intros [= <- <-]. exists b. auto. }
  call_step. destruct r0 as [data n].
  unfold filled. unfold mbind at 1, M_bind at 1, lift at 1.
  destruct (store_bytes b 0 data) as [b1|] eqn:Hst; ub_simpl; [|discriminate].
  pose proof (store_bytes_length _ _ _ _ Hst) as Hlen.
  apply store_bytes_overlay in Hst.
  intros Hrun. apply IH in Hrun as (b' & Hr & Hlen' & Hall).
  exists b'. split; [exact Hr|]. split; [congruence|].
  intros Hb. apply Hall. subst b1. now apply overlay_written.
Qed.

Lemma rstrip_block (b : block) (p : pointer) :
  rstrip (Some b) = Val p ->
  exists b', p = Some b' /\ length b' = length b /\
             (Forall is_Some b -> Forall is_Some b').
Proof.
  unfold rstrip. destruct (strlen b); ub_simpl; [|discriminate].
  destruct (_ >? 0).
  - destruct (rstrip_scan _ _) as [i|]; ub_simpl; [|discriminate].
    destruct (store b i NUL) as [b'|] eqn:Hst; ub_simpl; [|discriminate].
    intros [= <-]. exists b'. split; [reflexivity|].
    split; [eauto using store_length|].
    intros Hb. unfold store in Hst. destruct (_ && _); [|discriminate].
    injection Hst as <-. apply Forall_insert; eauto.
  - intros [= <-]. exists b. auto.
Qed.

(** What [ubnt_exec_command] of ubnt.c returns is the block it allocated:
    never null, of 8192 * 48 bytes, each of them written. *)
Lemma ubnt_exec_command_block {W : Type} (libssh : transport W) (fuel : nat)
    (device : UBNTDevice) (command : list ascii) (w w' : world W) (p : pointer) :
  ubnt_exec_command libssh fuel device command w = Returns p w' ->
  exists b, p = Some b /\ length b = length exec_buffer /\ Forall is_Some b.
Proof.
  unfold ubnt_exec_command. do 3 call_step.
  rewrite calloc_exec_buffer.
  unfold mbind at 1, M_bind at 1.
  destruct (drain _ _ _ _ _ _) as [[buffer nbytes] w1|w1|] eqn:Hdrain;
    [|discriminate|discriminate].
  apply drain_block in Hdrain as (b1 & Hb1 & Hlen1 & Hall1). cbn [fst] in Hb1.
  subst buffer.
  unfold mbind at 1, M_bind at 1, lift at 1.
  destruct (rstrip _) as [p1|] eqn:Hrstrip; [|discriminate].
  apply rstrip_block in Hrstrip as (b2 & -> & Hlen2 & Hall2).
  do 3 call_step. intros [= <- <-].
  exists b2. split; [reflexivity|]. split; [congruence|].
  apply Hall2, Hall1, exec_buffer_written.
Qed.

Lemma strip_keeps_all_undefined (b : block) (n : nat) :
  strlen b = Val n -> Z.of_nat n + 100 < 2 ^ 31 ->
  keeps_all (take (n + 100) b) = true ->
  strip (Some b) = UB.
Proof.
  intros Hn Hlen Hkeep. unfold strip. rewrite Hn. ub_simpl.
  rewrite to_int_small by lia.
  unfold malloc. destruct (Z.ltb_spec (Z.of_nat n + 100) 0); [lia|].
  replace (Z.to_nat (Z.of_nat n + 100)) with (n + 100)%nat by lia.
  destruct (strip_loop_keeps_all b (n + 100) 0 (repeat None (n + 100)))
    as [Hub | (out' & Hval & Hout)].
  - intros k c Hk Hc. apply (keeps_all_lookup _ k c Hkeep).
    rewrite lookup_take_lt by lia. exact Hc.
  - change (Z.of_nat 0) with 0 in Hub. rewrite Hub. reflexivity.
  - change (Z.of_nat 0) with 0 in Hval. rewrite Hval. ub_simpl.
    rewrite store_out_of_bounds; [reflexivity|].
    rewrite Hout, repeat_length. lia.
Qed.

Lemma written_image (cells : block) :
  Forall is_Some cells -> exists t, cells = map Some t.
Proof.
  induction 1 as [|x cells [c ->] _ [t ->]]; [now exists []|].
  now exists (c :: t).
Qed.

(** [strip] on a block whose bytes are all written, the [strlen + 100]
    bytes it reads lying inside the block: the filtered string when one of
    those bytes is dropped, no defined result otherwise. *)
Lemma strip_written (b : block) (s : list ascii) :
  cstring b = Val s -> Forall is_Some b ->
  Z.of_nat (length s) + 100 <= Z.of_nat (length b) ->
  Z.of_nat (length s) + 100 < 2 ^ 31 ->
  if keeps_all (take (length s + 100) b)
  then strip (Some b) = UB
  else exists p, strip (Some b) = Val p /\
                 string_of p = Val (Some (List.filter strip_keeps s)).
Proof.
  intros Hs Hall Hroom Hlen.
  destruct (keeps_all (take (length s + 100) b)) eqn:Hkeep.
  { apply cstring_inv in Hs as (rest & -> & Hnul).
    apply (strip_keeps_all_undefined _ (length s));
      [now apply strlen_holding | lia | exact Hkeep]. }
  apply cstring_inv in Hs as (rest & -> & Hnul).
  rewrite length_holding in Hroom.
  unfold holding in Hall. apply Forall_app in Hall as [_ Hall].
  apply Forall_cons in Hall as [_ Hall].
  rewrite <- (take_drop 99 rest) in Hall. apply Forall_app in Hall as [Ht _].
  apply written_image in Ht as [t Ht].
  assert (length t = 99%nat) as Hlt.
  { apply (f_equal length) in Ht. rewrite length_take, length_map in Ht. lia. }
  assert (rest = map Some t ++ drop 99 rest) as Hrest
    by (rewrite <- Ht; now rewrite take_drop).
  rewrite Hrest in Hkeep |- *.
  assert (take (length s + 100) (holding s (map Some t ++ drop 99 rest))
          = map Some (s ++ NUL :: t)) as Htake.
  { unfold holding.
    replace (map Some s ++ Some NUL :: map Some t ++ drop 99 rest)
      with (map Some (s ++ NUL :: t) ++ drop 99 rest)
      by (rewrite map_app, <- app_assoc; reflexivity).
    rewrite take_app_length'; [reflexivity|].
    rewrite length_map, length_app. cbn [length]. lia. }
  rewrite Htake in Hkeep.
  pose proof (strip_filters s t (drop 99 rest) Hnul Hlt Hlen Hkeep) as Hgood.
  destruct (strip _) as [p|]; [|discriminate]. exists p. split; [reflexivity|].
  exact Hgood.
Qed.

(** [ubnt_save] of ubnt.c cannot report a failure.  The result of
    [ubnt_exec_command] is never null, so the branch that gives
    [UBNT_ERROR] is dead: a run returns [UBNT_SUCCESS] where its
    [ubnt_exec_command] returns, whatever it returns, and [UBNT_SUCCESS]
    is the first enumerator, 0, where the comment of the function promises
    1 on success and 0 on failure. *)
Theorem ubnt_save_always_success (W : Type) (libssh : transport W) (fuel : nat)
    (device : UBNTDevice) (w : world W) :
  ubnt_save libssh fuel device w
  = match ubnt_exec_command libssh fuel device (lit "cfgmtd -w -p /etc/") w with
    | Returns _ w' => Returns UBNT_SUCCESS w'
    | Undefined w' => Undefined w'
    | OutOfFuel => OutOfFuel
    end /\
  forall r w', ubnt_save libssh fuel device w = Returns r w' -> r = 0.
Proof.
  assert (ubnt_save libssh fuel device w
          = match ubnt_exec_command libssh fuel device (lit "cfgmtd -w -p /etc/") w with
            | Returns _ w' => Returns UBNT_SUCCESS w'
            | Undefined w' => Undefined w'
            | OutOfFuel => OutOfFuel
            end) as Hsave.
  { unfold ubnt_save. unfold mbind at 1, M_bind at 1.
    destruct (ubnt_exec_command _ _ _ _ _) as [p w1|w1|] eqn:Hexec;
      [|reflexivity|reflexivity].
    apply ubnt_exec_command_block in Hexec as (b & -> & _). reflexivity. }
  split; [exact Hsave|].
  intros r w'. rewrite Hsave.
  destruct (ubnt_exec_command _ _ _ _ _); [|discriminate..].
  now intros [= <- _].
Qed.

(** A device that refuses the session: the command cannot have run, and
    the result is still 0. *)
Example ubnt_save_no_session :
  returned (ubnt_save (scripted no_session) 1 device0 idle) = Some 0.
Proof. vm_compute. reflexivity. Qed.

Lemma exec_then_strip {W : Type} (wq : world W) (b : block) (s : list ascii) :
  length b = length exec_buffer -> Forall is_Some b -> cstring b = Val s ->
  Z.of_nat (length s) + 100 <= Z.of_nat (length exec_buffer) ->
  if keeps_all (take (length s + 100) b)
  then lift (strip (Some b)) wq = Undefined wq
  else exists p, lift (strip (Some b)) wq = Returns p wq /\
                 string_of p = Val (Some (List.filter strip_keeps s)).
Proof.
  pose proof exec_buffer_length as Hsize. revert Hsize.
  generalize (length exec_buffer). intros N Hsize Hlen Hall Hs Hroom.
  pose proof (strip_written b s Hs Hall) as H.
  rewrite Hlen in H. specialize (H Hroom ltac:(lia)).
  destruct (keeps_all _).
  - unfold lift. now rewrite H.
  - destruct H as (p & Hp & Hstr). exists p. unfold lift. now rewrite Hp.
Qed.

(** [ubnt_wstalist] of ubnt.c, from what its [ubnt_exec_command] gave: the
    output [s] of the command wstalist, at most 8192 * 48 - 100 characters.
    [strip] reads [strlen + 100] bytes of the buffer.  When one of them is a
    line feed, a tab or a carriage return, the result is [s] without those
    characters; when none is, as for an output of one line, the terminator
    is written behind the new block and the call has no defined result. *)
Theorem ubnt_wstalist_strips (W : Type) (libssh : transport W) (fuel : nat)
    (device : UBNTDevice) (w wq : world W) (b : block) (s : list ascii) :
  ubnt_exec_command libssh fuel device (lit "wstalist") w = Returns (Some b) wq ->
  cstring b = Val s ->
  Z.of_nat (length s) + 100 <= Z.of_nat (length exec_buffer) ->
  if keeps_all (take (length s + 100) b)
  then ubnt_wstalist libssh fuel device w = Undefined wq
  else exists p, ubnt_wstalist libssh fuel device w = Returns p wq /\
                 string_of p = Val (Some (List.filter strip_keeps s)).
Proof.
  intros Hexec Hs Hroom.
  pose proof (ubnt_exec_command_block _ _ _ _ _ _ _ Hexec) as (b' & [= <-] & Hlen & Hall).
  assert (ubnt_wstalist libssh fuel device w = lift (strip (Some b)) wq) as ->
    by (unfold ubnt_wstalist; unfold mbind, M_bind; now rewrite Hexec).
  now apply exec_then_strip.
Qed.

(** [ubnt_wstalist_strips] on a device that answers one line, [ok] and a
    line feed: the call has no defined result. *)
Lemma ubnt_wstalist_strips_witness :
  exists wq,
    ubnt_wstalist (scripted amenable) 3 device0
      (start (Remote [lit "ok" ++ [LF]] [] []))
    = Undefined wq.
Proof.
  pose (w := start (Remote [lit "ok" ++ [LF]] [] [])).
  pose (r := ubnt_exec_command (scripted amenable) 3 device0 (lit "wstalist") w).
  assert (returned_string r = Some (Some (lit "ok"))) as E by (vm_compute; reflexivity).
  assert (match r with
          | Returns (Some b) _ => keeps_all (take 102 b)
          | _ => false
          end = true) as K by (vm_compute; reflexivity).
  destruct (returned_string_inv _ _ E) as (p & wq & Hrun & Hstr).
  rewrite Hrun in K. destruct p as [b|]; [|discriminate Hstr].
  assert (cstring b = Val (lit "ok")) as Hs.
  { cbn [string_of] in Hstr. destruct (cstring b); [|discriminate Hstr].
    now injection Hstr as ->. }
  assert (Z.of_nat (length (lit "ok")) + 100 <= Z.of_nat (length exec_buffer)) as Hroom
    by (rewrite exec_buffer_length; vm_compute; intros Hgt; discriminate Hgt).
  pose proof (ubnt_wstalist_strips _ _ _ _ _ _ _ _ Hrun Hs Hroom) as H.
  change (length (lit "ok") + 100)%nat with 102%nat in H.
  rewrite K in H. exists wq. exact H.
Defined.

(** [ubnt_scan] of ubnt.c, from what its [ubnt_exec_command] gave for the
    command iwlist ath0 scan | scanparser: the output without line feeds,
    tabs and carriage returns when [strip] finds one among the
    [strlen + 100] bytes it reads, no defined result when it finds none. *)
Theorem ubnt_scan_strips (W : Type) (libssh : transport W) (fuel : nat)
    (device : UBNTDevice) (w wq : world W) (b : block) (s : list ascii) :
  ubnt_exec_command libssh fuel device (lit "iwlist ath0 scan | scanparser") w
  = Returns (Some b) wq ->
  cstring b = Val s ->
  Z.of_nat (length s) + 100 <= Z.of_nat (length exec_buffer) ->
  if keeps_all (take (length s + 100) b)
  then ubnt_scan libssh fuel device w = Undefined wq
  else exists p, ubnt_scan libssh fuel device w = Returns p wq /\
                 string_of p = Val (Some (List.filter strip_keeps s)).
Proof.
  intros Hexec Hs Hroom.
  pose proof (ubnt_exec_command_block _ _ _ _ _ _ _ Hexec) as (b' & [= <-] & Hlen & Hall).
  assert (ubnt_scan libssh fuel device w = lift (strip (Some b)) wq) as ->
    by (unfold ubnt_scan; unfold mbind, M_bind; now rewrite Hexec).
  now apply exec_then_strip.
Qed.

(** [ubnt_scan_strips] on a device that answers two lines, [a] and [b]:
    the result is [ab]. *)
Lemma ubnt_scan_strips_witness :
  exists p wq,
    ubnt_scan (scripted amenable) 3 device0
      (start (Remote [lit "a" ++ [LF] ++ lit "b" ++ [LF]] [] []))
    = Returns p wq /\
    string_of p = Val (Some (lit "ab")).
Proof.
  pose (w := start (Remote [lit "a" ++ [LF] ++ lit "b" ++ [LF]] [] [])).
  pose (r := ubnt_exec_command (scripted amenable) 3 device0
               (lit "iwlist ath0 scan | scanparser") w).
  assert (returned_string r = Some (Some (lit "a" ++ [LF] ++ lit "b"))) as E
    by (vm_compute; reflexivity).
  assert (match r with
          | Returns (Some b) _ => keeps_all (take 103 b)
          | _ => true
          end = false) as K by (vm_compute; reflexivity).
  destruct (returned_string_inv _ _ E) as (p & wq & Hrun & Hstr).
  rewrite Hrun in K. destruct p as [b|]; [|discriminate Hstr].
  assert (cstring b = Val (lit "a" ++ [LF] ++ lit "b")) as Hs.
  { cbn [string_of] in Hstr. destruct (cstring b); [|discriminate Hstr].
    now injection Hstr as ->. }
  assert (Z.of_nat (length (lit "a" ++ [LF] ++ lit "b")) + 100
          <= Z.of_nat (length exec_buffer)) as Hroom
    by (rewrite exec_buffer_length; vm_compute; intros Hgt; discriminate Hgt).
  pose proof (ubnt_scan_strips _ _ _ _ _ _ _ _ Hrun Hs Hroom) as H.
  change (length (lit "a" ++ [LF] ++ lit "b") + 100)%nat with 103%nat in H.
  rewrite K in H. destruct H as (p & Hp & Hres). exists p, wq. split; assumption.
Defined.

(** [ubnt_mca_status] of ubnt.c, from what its [ubnt_exec_command] gave
    for the command mca-status: with [s] the output, the result is the
    document [mca_json s]; the call has no defined result when the output
    starts with a carriage return or its document does not fit the 2048
    bytes of [mca_to_json]. *)
Theorem ubnt_mca_status_document (W : Type) (libssh : transport W) (fuel : nat)
    (device : UBNTDevice) (w wq : world W) (b : block) (s : list ascii) :
  ubnt_exec_command libssh fuel device (lit "mca-status") w = Returns (Some b) wq ->
  cstring b = Val s ->
  match mca_json s with
  | Some doc =>
      exists p, ubnt_mca_status libssh fuel device w = Returns p wq /\
                string_of p = Val (Some doc)
  | None => ubnt_mca_status libssh fuel device w = Undefined wq
  end.
Proof.
  intros Hexec Hs.
  pose proof (ubnt_exec_command_block _ _ _ _ _ _ _ Hexec) as (b' & [= <-] & Hlen & _).
  pose proof exec_buffer_length as Hsize. revert Hsize Hlen.
  generalize (length exec_buffer). intros N Hsize Hlen.
  apply cstring_inv in Hs as (rest & -> & Hnul).
  rewrite length_holding in Hlen.
  assert (ubnt_mca_status libssh fuel device w
          = (r ← lift (mca_to_json (Some (holding s rest))); mret r.2) wq) as ->
    by (unfold ubnt_mca_status; unfold mbind at 1, M_bind at 1; now rewrite Hexec).
  unfold mbind, M_bind, lift.
  rewrite mca_to_json_holding by (assumption || lia).
  destruct (mca_json s) as [doc|] eqn:Hdoc; [|reflexivity].
  eexists. split; [reflexivity|]. cbn [snd string_of].
  rewrite cstring_holding; [reflexivity|].
  unfold mca_json in Hdoc. destruct (starts_with_cr s); [discriminate Hdoc|].
  cbv zeta in Hdoc. destruct (_ <=? _); [|discriminate Hdoc].
  assert (doc = lit "[{" ++ [DQ] ++ mca_fields NUL (mca_dashes s) ++ [DQ] ++ lit "}]")
    as -> by congruence.
  assert (NUL ∉ mca_fields NUL (mca_dashes s)) as Htext
    by (apply mca_fields_no_nul; now apply mca_dashes_no_nul).
  rewrite !not_elem_of_app. repeat split; try exact Htext;
    apply no_nul_check; reflexivity.
Qed.

(** [ubnt_mca_status_document] on a device that answers the two lines
    [a=1] and [b=2], ended by carriage return and line feed. *)
Lemma ubnt_mca_status_document_witness :
  exists p wq,
    ubnt_mca_status (scripted amenable) 3 device0
      (start (Remote [lit "a=1" ++ [CR; LF] ++ lit "b=2" ++ [CR; LF]] [] []))
    = Returns p wq /\
    string_of p
    = Val (Some (lit "[{" ++ quoted "a" ++ lit ":" ++ quoted "1" ++ lit ","
                 ++ quoted "b" ++ lit ":" ++ quoted "2" ++ lit "}]")).
Proof.
  pose (w := start (Remote [lit "a=1" ++ [CR; LF] ++ lit "b=2" ++ [CR; LF]] [] [])).
  pose (r := ubnt_exec_command (scripted amenable) 3 device0 (lit "mca-status") w).
  assert (returned_string r = Some (Some (lit "a=1" ++ [CR; LF] ++ lit "b=2"))) as E
    by (vm_compute; reflexivity).
  destruct (returned_string_inv _ _ E) as (p & wq & Hrun & Hstr).
  destruct p as [b|]; [|discriminate Hstr].
  assert (cstring b = Val (lit "a=1" ++ [CR; LF] ++ lit "b=2")) as Hs.
  { cbn [string_of] in Hstr. destruct (cstring b); [|discriminate Hstr].
    now injection Hstr as ->. }
  pose proof (ubnt_mca_status_document _ _ _ _ _ _ _ _ Hrun Hs) as H.
  assert (mca_json (lit "a=1" ++ [CR; LF] ++ lit "b=2")
          = Some (lit "[{" ++ quoted "a" ++ lit ":" ++ quoted "1" ++ lit ","
                  ++ quoted "b" ++ lit ":" ++ quoted "2" ++ lit "}]")) as Ej
    by (vm_compute; reflexivity).
  rewrite Ej in H. destruct H as (p & Hp & Hres). exists p, wq. split; assumption.
Defined.

(** ** ubnt_save of device.h *)

(** [ubnt_save] of device.h reports whether the command was accepted, not
    whether it worked.  Without a channel, or when opening the session or
    the exec request fails, it returns 0; once both succeeded every run
    that returns gives 1, whatever the device answered. *)
Theorem device_h_ubnt_save_reports (W : Type) (libssh : transport W) (fuel : nat)
    (device : UBNTDevice) (w : world W) :
  let run := Device_h.ubnt_save libssh fuel device w in
  let (channel, l1) := libssh _ (ssh_channel_new (session device)) (lib w) in
  match channel with
  | None => exists w', run = Returns 0 w'
  | Some _ =>
      let (rc1, l2) := libssh _ (ssh_channel_open_session channel) l1 in
      if rc1 =? SSH_OK then
        let (rc2, l3) :=
          libssh _ (ssh_channel_request_exec channel (lit "cfgmtd -w -p /etc/")) l2 in
        if rc2 =? SSH_OK then forall r w', run = Returns r w' -> r = 1
        else exists w', run = Returns 0 w'
      else exists w', run = Returns 0 w'
  end.
Proof.
  unfold Device_h.ubnt_save, Device_h.ubnt_exec_command. cbv zeta.
  rewrite bind_assoc, bind_invoke.
  destruct (libssh _ (ssh_channel_new (session device)) (lib w)) as [channel l1].
  cbn [fst snd]. destruct channel as [c|].
  2:{ eexists. reflexivity. }
  rewrite bind_assoc, bind_invoke. cbn [lib trace].
  destruct (libssh _ (ssh_channel_open_session (Some c)) l1) as [rc1 l2].
  cbn [fst snd]. destruct (rc1 =? SSH_OK).
  2:{ rewrite bind_assoc, bind_ret. rewrite bind_assoc. call_step.
      rewrite bind_assoc. call_step. rewrite bind_assoc. call_step.
      eexists. reflexivity. }
  rewrite !bind_assoc, bind_invoke. cbn [lib trace].
  destruct (libssh _ (ssh_channel_request_exec (Some c) _) l2) as [rc2 l3].
  cbn [fst snd]. destruct (rc2 =? SSH_OK).
  2:{ rewrite bind_ret. rewrite bind_assoc. call_step.
      rewrite bind_assoc. call_step. rewrite bind_assoc. call_step.
      eexists. reflexivity. }
  intros r w'. rewrite calloc_exec_buffer. rewrite bind_assoc.
  unfold mbind at 1, M_bind at 1.
  destruct (drain _ _ _ _ _ _) as [[buffer nbytes] w1|w1|] eqn:Hdrain;
    [|discriminate|discriminate].
  apply drain_block in Hdrain as (b1 & Hb1 & _). cbn [fst] in Hb1. subst buffer.
  unfold mbind at 1, M_bind at 1, lift at 1.
  destruct (rstrip (Some b1)) as [p1|] eqn:Hrstrip; [|discriminate].
  apply rstrip_block in Hrstrip as (b2 & -> & _).
  rewrite bind_assoc. call_step. rewrite bind_assoc. call_step.
  rewrite bind_assoc. call_step.
  now intros [= <- _].
Qed.

(** A device that refuses the session, and one that accepts the command
    and sends nothing. *)
Example device_h_ubnt_save_examples :
  returned (Device_h.ubnt_save (scripted no_session) 1 device0 idle) = Some 0 /\
  returned (Device_h.ubnt_save (scripted amenable) 1 device0 idle) = Some 1.
Proof. vm_compute. split; reflexivity. Qed.
